(** * nvidia-rag.ipynb: multi-query expansion, step-back prompting,
      rate-limited web search and refine summarization

    A shallow embedding of the notebook's cells.  Python [str] values are
    sequences of Unicode code points; the language model and the search
    provider are external collaborators, modelled as oracles that may answer
    differently at every call and may raise; every call, and every
    [time.sleep], is recorded in a trace together with a logical clock. *)

From Stdlib Require Import String Ascii.
From Stdlib Require Import List NArith ZArith Lia Bool.
Import ListNotations.

Local Open Scope N_scope.

(** ** Python strings *)

Module PyStr.

(** A Python 3 [str]: a sequence of code points. *)
Definition pystr : Type := list N.

(** A literal whose characters are all below U+0100. *)
Definition lit (s : string) : pystr := map N_of_ascii (list_ascii_of_string s).

(** The newline character, written "\n" in the source. *)
Definition nl : N := 10.

(** [str.isspace] on one code point, the test [str.strip()] applies when it is
    called without an argument: the ASCII controls U+0009..U+000D and
    U+001C..U+001F, the space, and the non-ASCII separators. *)
Definition py_isspace (c : N) : bool :=
  ((9 <=? c) && (c <=? 13))
  || ((28 <=? c) && (c <=? 32))
  || (c =? 133) || (c =? 160) || (c =? 5760)
  || ((8192 <=? c) && (c <=? 8202))
  || (c =? 8232) || (c =? 8233) || (c =? 8239) || (c =? 8287) || (c =? 12288).

Fixpoint lstrip (s : pystr) : pystr :=
  match s with
  | [] => []
  | c :: s' => if py_isspace c then lstrip s' else s
  end.

Definition rstrip (s : pystr) : pystr := rev (lstrip (rev s)).

(** [s.strip()] *)
Definition strip (s : pystr) : pystr := rstrip (lstrip s).

(** [s.split(sep)] for a one-character separator: every occurrence of [sep]
    ends a field, empty fields are kept, and the empty string gives one empty
    field. *)
Fixpoint split (sep : N) (s : pystr) : list pystr :=
  match s with
  | [] => [[]]
  | c :: s' =>
      if c =? sep then [] :: split sep s'
      else match split sep s' with
           | l :: ls => (c :: l) :: ls
           | [] => [[c]]
           end
  end.

(** [sep.join(fields)] *)
Fixpoint join (sep : N) (fields : list pystr) : pystr :=
  match fields with
  | [] => []
  | [l] => l
  | l :: ls => l ++ sep :: join sep ls
  end.

(** The string starts, respectively ends, with a character that [strip]
    would leave in place (or is empty). *)
Definition clean_head (s : pystr) : Prop :=
  match s with
  | [] => True
  | c :: _ => py_isspace c = false
  end.

Definition clean_tail (s : pystr) : Prop := clean_head (rev s).

End PyStr.

Import PyStr.

(** ** The outside world *)

(** Errors a call can end with.  The boundary errors are the ones the
    collaborators' interfaces name; [EmptyInput] belongs to the refine chain. *)
Inductive Error : Type :=
| EmptyInput
| ModelUnavailable
| ModelTimeout
| SearchUnavailable
| SearchRateLimited.

(** Chat messages, as [ChatPromptTemplate.from_messages] builds them: the
    roles "system", "human"/"user" and "ai". *)
Inductive Message : Type :=
| SystemMessage (content : pystr)
| HumanMessage (content : pystr)
| AIMessage (content : pystr).

(** What a prompt template hands to the model. *)
Inductive ModelInput : Type :=
| StringPromptValue (text : pystr)
| ChatPromptValue (messages : list Message).

(** One observable action of the notebook. *)
Inductive Event : Type :=
| ModelCall (input : ModelInput) (reply : Error + pystr)
| SearchCall (query : pystr) (reply : Error + pystr)
| Sleep (secs : N).

(** The state threaded through the cells: a logical clock and the actions
    performed so far, oldest first. *)
Record World : Type := mkWorld { now : N; trace : list Event }.

(** [model] (a [ChatNVIDIA]) and [search] (a [DuckDuckGoSearchRun]): the reply
    to a call and the time the call takes.  Both may depend on everything that
    happened before. *)
Record Collaborators : Type := mkCollaborators {
  model_invoke : World -> ModelInput -> (Error + pystr) * N;
  search_run : World -> pystr -> (Error + pystr) * N
}.

(** ** Computations: state passing with exceptions *)

Definition M (A : Type) : Type := World -> (Error + A) * World.

Definition ret {A} (a : A) : M A := fun w => (inr a, w).

Definition raise {A} (e : Error) : M A := fun w => (inl e, w).

Definition bind {A B} (m : M A) (k : A -> M B) : M B :=
  fun w =>
    match m w with
    | (inr a, w1) => k a w1
    | (inl e, w1) => (inl e, w1)
    end.

Declare Scope py_scope.
Delimit Scope py_scope with py.
Notation "x <- m ;; k" := (bind m (fun x => k))
  (at level 61, m at next level, right associativity) : py_scope.
Notation "m ;; k" := (bind m (fun _ => k))
  (at level 61, right associativity) : py_scope.
Local Open Scope py_scope.

(** ** The notebook *)

Record LineList : Type := mkLineList { lines : list pystr }.

Record Document : Type := mkDocument { page_content : pystr }.

(** [LineListOutputParser.parse]:
    [lines = text.strip().split("\n"); return LineList(lines=lines)] *)
Definition LineListOutputParser_parse (text : pystr) : LineList :=
  let lines := split nl (strip text) in
  mkLineList lines.

(** Modelled from the spec: [StrOutputParser], the orchestration library's
    parser at the end of [question_gen]; the raw text response is used as it
    is, as the outputs recorded in the notebook show. *)
Definition StrOutputParser_parse (text : pystr) : pystr := text.

Definition QUERY_PROMPT_template : pystr :=
  lit "As an AI language model assistant, your primary objective is to enhance the user's ability to retrieve pertinent documents from a vector database through a distance-based "
  ++ nl :: lit "                similarity search. To achieve this, create three distinct versions of the user's original question, focusing on using different wordings for each version. "
  ++ nl :: lit "                Each version should offer a unique perspective or rephrasing, aiming to capture a broader range of potential search results by overcoming the inherent limitations of keyword-based searches in vector databases. Ensure that these alternative questions "
  ++ nl :: lit "                are diverse in their phrasing and focus, yet remain true to the essence of the original query. Present the rephrased questions one after the other, separated by newlines."
  ++ nl :: lit "                Original question: ".

(** [QUERY_PROMPT]: the template with [{question}] filled in. *)
Definition QUERY_PROMPT (question : pystr) : ModelInput :=
  StringPromptValue (QUERY_PROMPT_template ++ question).

(** The few-shot [examples]; U+2019 is the apostrophe of the source. *)
Definition examples : list (pystr * pystr) :=
  [ (lit "Could the members of The Police perform lawful arrests?",
     lit "what can the members of The Police do?");
    (lit "Jan Sindel" ++ 8217 :: lit "s was born in what country?",
     lit "what is Jan Sindel" ++ 8217 :: lit "s personal history?") ].

(** [example_prompt]: [("human", "{input}"), ("ai", "{output}")] *)
Definition example_prompt (example : pystr * pystr) : list Message :=
  [HumanMessage (fst example); AIMessage (snd example)].

Definition few_shot_prompt : list Message := flat_map example_prompt examples.

Definition system_message : pystr :=
  lit "You are an expert at world knowledge. Your task is to step back "
  ++ lit "and paraphrase a question to one more generic step-back question, which "
  ++ lit "is easier to answer and gather foundational knowledge. Ensure only ONE generic step-back question is returned. ONLY RETURN step-back question."
  ++ lit "Here are a few examples:".

(** [prompt]: the system instruction, the few-shot examples, then the new
    question as the user's message. *)
Definition prompt (question : pystr) : ModelInput :=
  ChatPromptValue
    (SystemMessage system_message :: few_shot_prompt ++ [HumanMessage question]).

Section Notebook.

Variable C : Collaborators.

(** One call of [model]: the reply is logged and the clock advances by the
    time the call took; an error reply is raised. *)
Definition call_model (input : ModelInput) : M pystr :=
  fun w =>
    let (reply, took) := model_invoke C w input in
    (reply, mkWorld (now w + took) (trace w ++ [ModelCall input reply])).

(** [search.run(query)] *)
Definition call_search (query : pystr) : M pystr :=
  fun w =>
    let (reply, took) := search_run C w query in
    (reply, mkWorld (now w + took) (trace w ++ [SearchCall query reply])).

(** [time.sleep(secs)] *)
Definition sleep (secs : N) : M unit :=
  fun w => (inr tt, mkWorld (now w + secs) (trace w ++ [Sleep secs])).

(** [multiquery_chain = QUERY_PROMPT | model | LineListOutputParser()] *)
Definition multiquery_chain (question : pystr) : M LineList :=
  text <- call_model (QUERY_PROMPT question) ;;
  ret (LineListOutputParser_parse text).

(** The Query Expander: [multiquery_chain.invoke({"question": q}).lines] *)
Definition expand (question : pystr) : M (list pystr) :=
  res <- multiquery_chain question ;;
  ret (lines res).

(** [question_gen = {"question": RunnablePassthrough()} | prompt | model
                    | StrOutputParser()] *)
Definition question_gen (question : pystr) : M pystr :=
  text <- call_model (prompt question) ;;
  ret (StrOutputParser_parse text).

(** The Step-Back Generator, single form. *)
Definition stepBack : pystr -> M pystr := question_gen.

(** Modelled from the spec: the [batch] method of a chain, which the notebook
    calls and the orchestration library defines.  It applies the single form
    to each input in turn and returns the outputs in input order; a failing
    call aborts the batch. *)
Fixpoint batch {A B} (f : A -> M B) (inputs : list A) : M (list B) :=
  match inputs with
  | [] => ret []
  | x :: rest =>
      y <- f x ;;
      ys <- batch f rest ;;
      ret (y :: ys)
  end.

(** The Step-Back Generator, batch form: [question_gen.batch(res.lines)] *)
Definition stepBackAll (questions : list pystr) : M (list pystr) :=
  batch question_gen questions.

(** The search loop:
    [for query in queries_to_search:
         search_results.append(Document(page_content=search.run(query)))
         time.sleep(5)] *)
Fixpoint search_loop (queries : list pystr) (search_results : list Document)
  : M (list Document) :=
  match queries with
  | [] => ret search_results
  | query :: rest =>
      text <- call_search query ;;
      let search_results := search_results ++ [mkDocument text] in
      sleep 5 ;;
      search_loop rest search_results
  end.

(** The Web Search Collector: [search_results = []] and the loop. *)
Definition collect (queries : list pystr) : M (list Document) :=
  search_loop queries [].

End Notebook.

(** ** The refine chain and the whole pipeline *)

(** The two prompts of the refine chain: the first asks for a summary of one
    text, the second for a revision of an existing summary in the light of one
    more text.  Their wording is the orchestration library's and is left
    open. *)
Record RefinePrompts : Type := mkRefinePrompts {
  seed_prompt : pystr -> ModelInput;
  revise_prompt : pystr -> pystr -> ModelInput
}.

(** What [chain.invoke] returns: a dict with the documents and the summary. *)
Record ChainOutput : Type := mkChainOutput {
  input_documents : list Document;
  output_text : pystr
}.

Section Pipeline.

Variable C : Collaborators.
Variable P : RefinePrompts.

(** Modelled from the spec: steps 1 .. n-1 of the Refine Summarizer, whose
    code is the orchestration library's refine chain.  Each step prompts the
    model with the running summary and the next document and replaces the
    running summary with the reply. *)
Fixpoint refine_steps (running_summary : pystr) (documents : list Document)
  : M pystr :=
  match documents with
  | [] => ret running_summary
  | d :: rest =>
      revised <- call_model C (revise_prompt P running_summary (page_content d)) ;;
      refine_steps revised rest
  end.

(** Modelled from the spec: the Refine Summarizer,
    [load_summarize_chain(model, chain_type="refine")], whose code is the
    orchestration library's.  It fails with [EmptyInput] on no document;
    otherwise step 0 seeds the running summary from the first document alone
    and the remaining documents are folded in from left to right. *)
Definition refine (documents : list Document) : M pystr :=
  match documents with
  | [] => raise EmptyInput
  | d0 :: rest =>
      seed <- call_model C (seed_prompt P (page_content d0)) ;;
      refine_steps seed rest
  end.

(** [chain.invoke(search_results)] *)
Definition chain_invoke (search_results : list Document) : M ChainOutput :=
  summary <- refine search_results ;;
  ret (mkChainOutput search_results summary).

(** The cells of the notebook, run top to bottom on one question; the value
    is the last cell's [res['output_text']]. *)
Definition pipeline (question : pystr) : M pystr :=
  res <- multiquery_chain C question ;;
  stepback_answers <- stepBackAll C (lines res) ;;
  let queries_to_search := lines res ++ stepback_answers in
  search_results <- collect C queries_to_search ;;
  res <- chain_invoke search_results ;;
  ret (output_text res).

End Pipeline.

(** ** Vocabulary for traces *)

(** Model calls that were answered, one per input, in order. *)
Definition answered_calls (inputs : list ModelInput) (replies : list pystr)
  : list Event :=
  map (fun ir => ModelCall (fst ir) (inr (snd ir))) (combine inputs replies).

(** The search loop's footprint: each request followed by its delay. *)
Definition search_events (queries replies : list pystr) : list Event :=
  flat_map (fun qr => [SearchCall (fst qr) (inr (snd qr)); Sleep 5])
           (combine queries replies).

(** The prompts of a refine run over [documents] whose successive running
    summaries were [summaries]: the seed prompt sees the first document only,
    the i-th revision sees summary i-1 and document i. *)
Definition refine_inputs (P : RefinePrompts) (documents : list Document)
  (summaries : list pystr) : list ModelInput :=
  match documents with
  | [] => []
  | d0 :: rest =>
      seed_prompt P (page_content d0)
      :: map (fun sd => revise_prompt P (fst sd) (page_content (snd sd)))
             (combine summaries rest)
  end.

Definition search_requests (evs : list Event) : list pystr :=
  flat_map (fun e => match e with SearchCall q _ => [q] | _ => [] end) evs.

Definition sleeps (evs : list Event) : list N :=
  flat_map (fun e => match e with Sleep secs => [secs] | _ => [] end) evs.

Definition total_delay (evs : list Event) : N := fold_right N.add 0 (sleeps evs).

(** Collaborators that answer every call. *)
Definition model_answers (C : Collaborators) : Prop :=
  forall w input, exists text, fst (model_invoke C w input) = inr text.

Definition search_answers (C : Collaborators) : Prop :=
  forall w query, exists text, fst (search_run C w query) = inr text.

(** A model whose reply is a function [f] of its input alone. *)
Definition stateless_model (C : Collaborators) (f : ModelInput -> pystr) : Prop :=
  forall w input, fst (model_invoke C w input) = inr (f input).

(** ** Fixtures: stubbed collaborators *)

Module Fixtures.

Definition w0 : World := mkWorld 0 [].

(** The question of the notebook's example run. *)
Definition question : pystr :=
  lit "Latest development to query information from a vector database".

(** The three lines the notebook recorded for that question. *)
Definition recorded_lines : list pystr :=
  [ lit "1. What are the most recent advancements in extracting data from a vector database?";
    lit "2. How can one access the newest features for querying information within a vector database?";
    lit "3. In what ways have techniques for retrieving data evolved in vector databases recently?" ].

(** The first step-back answer the notebook recorded: a question, a blank
    line and a remark in parentheses. *)
Definition recorded_stepback : pystr :=
  lit "what are the latest developments in vector database technology?"
  ++ nl :: nl :: lit "(This question is more generic and focuses on the overall technology of vector databases, rather than specifically on data extraction methods.)".

Fixpoint starts_with (pre s : pystr) : bool :=
  match pre, s with
  | [], _ => true
  | p :: pre', c :: s' => (p =? c) && starts_with pre' s'
  | _ :: _, [] => false
  end.

Definition stub_prompts : RefinePrompts :=
  mkRefinePrompts
    (fun text => StringPromptValue (lit "Summarize: " ++ text))
    (fun existing text =>
       StringPromptValue (lit "Revise: " ++ existing ++ lit " with: " ++ text)).

(** A model that returns three fixed lines for an expansion prompt, one fixed
    line for a step-back prompt and a short bracketed text otherwise. *)
Definition stub_reply (input : ModelInput) : pystr :=
  match input with
  | ChatPromptValue _ =>
      lit "what are the latest developments in vector database technology?"
  | StringPromptValue text =>
      if starts_with QUERY_PROMPT_template text
      then join nl recorded_lines
      else lit "[" ++ firstn 24 text ++ lit "]"
  end.

(** A search provider that returns one fixed document per query. *)
Definition stub_search (query : pystr) : pystr := lit "results for: " ++ query.

Definition stub : Collaborators :=
  mkCollaborators (fun _ input => (inr (stub_reply input), 1))
                  (fun _ query => (inr (stub_search query), 2)).

(** A model whose answer has a padded line, a blank line and another padded
    line. *)
Definition untidy_text : pystr := lit "1. a " ++ nl :: nl :: lit " 2. b".

Definition untidy : Collaborators :=
  mkCollaborators (fun _ _ => (inr untidy_text, 1))
                  (fun _ query => (inr (stub_search query), 2)).

(** A model that answers with the empty text. *)
Definition silent : Collaborators :=
  mkCollaborators (fun _ _ => (inr [], 1))
                  (fun _ query => (inr (stub_search query), 2)).

(** A model that answers as the notebook recorded for the first variant. *)
Definition chatty : Collaborators :=
  mkCollaborators (fun _ _ => (inr recorded_stepback, 1))
                  (fun _ query => (inr (stub_search query), 2)).

End Fixtures.

(** ** More vocabulary and fixtures *)

(** A string made of characters that [strip] removes. *)
Definition whitespace (s : pystr) : Prop :=
  Forall (fun c => py_isspace c = true) s.

Definition model_inputs (evs : list Event) : list ModelInput :=
  flat_map (fun e => match e with ModelCall i _ => [i] | _ => [] end) evs.

(** The event is a call that a collaborator ended with the error [e]. *)
Definition failed_call (e : Error) (ev : Event) : Prop :=
  match ev with
  | ModelCall _ reply => reply = inl e
  | SearchCall _ reply => reply = inl e
  | Sleep _ => False
  end.

(** Events none of which is a failed call. *)
Definition all_answered (evs : list Event) : Prop :=
  Forall (fun ev => forall e, ~ failed_call e ev) evs.

(** A computation that keeps the notebook's discipline: it only appends to
    the trace and never turns the clock back; what it returns satisfies [Q]
    and was reached through answered calls only; and when it fails, the error
    is the one a collaborator replied in the last call made, all calls before
    it having been answered. *)
Definition guarded {A} (m : M A) (Q : A -> Prop) : Prop :=
  forall w,
    match m w with
    | (inr a, w') =>
        Q a /\ now w <= now w'
        /\ exists evs, trace w' = trace w ++ evs /\ all_answered evs
    | (inl e, w') =>
        now w <= now w'
        /\ exists evs ev,
             trace w' = trace w ++ evs ++ [ev]
             /\ all_answered evs /\ failed_call e ev
    end.

Module Outages.

(** A search provider that answers the first request of a run and signals
    throttling on every later one. *)
Definition throttled : Collaborators :=
  mkCollaborators
    (fun _ input => (inr (Fixtures.stub_reply input), 1))
    (fun w query =>
       match search_requests (trace w) with
       | [] => (inr (Fixtures.stub_search query), 2)
       | _ :: _ => (inl SearchRateLimited, 2)
       end).

(** A model that cannot be reached. *)
Definition offline : Collaborators :=
  mkCollaborators
    (fun _ _ => (inl ModelUnavailable, 1))
    (fun _ query => (inr (Fixtures.stub_search query), 2)).

End Outages.

(** A line as the Query Expander is said to return it: not empty, unchanged
    by [strip], free of newlines. *)
Definition well_formed_line (l : pystr) : Prop :=
  l <> [] /\ strip l = l /\ ~ In nl l.

(** *** Facts about [split] and [join] *)

Lemma split_not_nil sep s : split sep s <> [].
Proof.
  destruct s as [|c s]; simpl; [discriminate|].
  destruct (c =? sep); [discriminate|].
  destruct (split sep s); discriminate.
Qed.

Lemma split_fields_free sep s : Forall (fun l => ~ In sep l) (split sep s).
Proof.
  induction s as [|c s IH]; simpl.
  - constructor; [intros []|constructor].
  - destruct (N.eqb_spec c sep) as [->|Hne].
    + constructor; [intros []|exact IH].
    + destruct (split sep s) as [|l ls]; inversion IH; subst.
      * constructor; [|constructor]. intros [H|[]]. congruence.
      * constructor; [|assumption]. intros [H|H]; [congruence|tauto].
Qed.

Lemma join_split sep s : join sep (split sep s) = s.
Proof.
  induction s as [|c s IH]; simpl; [reflexivity|].
  destruct (N.eqb_spec c sep) as [->|Hne].
  - pose proof (split_not_nil sep s) as Hn.
    destruct (split sep s) as [|l ls]; [congruence|].
    simpl. f_equal. exact IH.
  - pose proof (split_not_nil sep s) as Hn.
    destruct (split sep s) as [|l ls]; [congruence|].
    simpl in *. destruct ls; simpl in *; rewrite <- IH; reflexivity.
Qed.

Lemma split_length sep s :
  length (split sep s) = S (count_occ N.eq_dec s sep).
Proof.
  induction s as [|c s IH]; simpl; [reflexivity|].
  destruct (N.eqb_spec c sep) as [->|Hne].
  - destruct (N.eq_dec sep sep); [|congruence]. simpl. now rewrite IH.
  - destruct (N.eq_dec c sep); [congruence|].
    destruct (split sep s); simpl in *; [discriminate|exact IH].
Qed.

(** The first field is a prefix of the string and the last one a suffix. *)
Lemma split_hd_prefix sep s : exists rest, s = hd [] (split sep s) ++ rest.
Proof.
  induction s as [|c s [rest IH]]; simpl.
  - now exists [].
  - destruct (c =? sep).
    + now exists (c :: s).
    + destruct (split sep s) as [|l ls]; simpl in *.
      * exists s. reflexivity.
      * exists rest. now rewrite IH at 1.
Qed.

Lemma split_last_suffix sep s : exists pre, s = pre ++ last (split sep s) [].
Proof.
  induction s as [|c s [pre IH]].
  - now exists [].
  - pose proof (split_not_nil sep s) as Hn.
    pose proof (join_split sep s) as J.
    cbn [split]. destruct (c =? sep).
    + exists (c :: pre). destruct (split sep s) as [|l ls]; [congruence|].
      change (last ([] :: l :: ls) []) with (last (l :: ls) []).
      simpl. now rewrite IH at 1.
    + destruct (split sep s) as [|l [|l' ls]]; [congruence| |].
      * simpl in J. subst l. now exists [].
      * exists (c :: pre).
        change (last ((c :: l) :: l' :: ls) []) with (last (l' :: ls) []).
        change (last (l :: l' :: ls) []) with (last (l' :: ls) []) in IH.
        simpl. now rewrite IH at 1.
Qed.

(** *** Facts about [strip] *)

Lemma lstrip_clean_head s : clean_head (lstrip s).
Proof.
  induction s as [|c s IH]; simpl; [exact I|].
  destruct (py_isspace c) eqn:E; [exact IH|exact E].
Qed.

Lemma clean_head_lstrip s : clean_head s <-> lstrip s = s.
Proof.
  split.
  - destruct s as [|c s]; simpl; [reflexivity|]. now intros ->.
  - intros <-. apply lstrip_clean_head.
Qed.

Lemma clean_tail_rstrip s : clean_tail s <-> rstrip s = s.
Proof.
  unfold clean_tail, rstrip. rewrite clean_head_lstrip. split; intros H.
  - rewrite H. apply rev_involutive.
  - rewrite <- H at 2. now rewrite rev_involutive.
Qed.

Lemma rstrip_clean_tail s : clean_tail (rstrip s).
Proof.
  unfold clean_tail, rstrip. rewrite rev_involutive. apply lstrip_clean_head.
Qed.

Lemma lstrip_snoc s c :
  py_isspace c = false -> lstrip (s ++ [c]) = lstrip s ++ [c].
Proof.
  intros Hc. induction s as [|x s IH]; simpl.
  - now rewrite Hc.
  - destruct (py_isspace x); [exact IH|reflexivity].
Qed.

Lemma rstrip_cons c s :
  py_isspace c = false -> rstrip (c :: s) = c :: rstrip s.
Proof.
  intros Hc. unfold rstrip. simpl rev at 2.
  rewrite lstrip_snoc by exact Hc. rewrite rev_app_distr. reflexivity.
Qed.

Lemma strip_clean_head s : clean_head (strip s).
Proof.
  unfold strip. pose proof (lstrip_clean_head s) as H.
  destruct (lstrip s) as [|c t]; [exact I|].
  simpl in H. rewrite rstrip_cons by exact H. exact H.
Qed.

Lemma strip_clean_tail s : clean_tail (strip s).
Proof. apply rstrip_clean_tail. Qed.

Lemma clean_head_prefix a b : clean_head (a ++ b) -> clean_head a.
Proof. destruct a; simpl; auto. Qed.

Lemma clean_tail_suffix a b : clean_tail (a ++ b) -> clean_tail b.
Proof.
  unfold clean_tail. rewrite rev_app_distr. apply clean_head_prefix.
Qed.

(** A string that keeps its two ends under [strip] is left whole. *)
Lemma strip_fixpoint s : clean_head s -> clean_tail s -> strip s = s.
Proof.
  intros Hh Ht. unfold strip.
  apply clean_head_lstrip in Hh. rewrite Hh.
  now apply clean_tail_rstrip.
Qed.

Lemma last_cons {A} (a : A) l d : last (a :: l) d = last l a.
Proof.
  revert a d. induction l as [|b l IH]; intros a d; [reflexivity|].
  change (last (a :: b :: l) d) with (last (b :: l) d).
  now rewrite !IH.
Qed.

(** ** Running computations *)

Lemma bind_ok {A B} (m : M A) (k : A -> M B) w b w' :
  bind m k w = (inr b, w') ->
  exists a w1, m w = (inr a, w1) /\ k a w1 = (inr b, w').
Proof.
  unfold bind. destruct (m w) as [[e|a] w1]; [discriminate|].
  intros H. now exists a, w1.
Qed.

Lemma bind_run {A B} (m : M A) (k : A -> M B) w a w1 :
  m w = (inr a, w1) -> bind m k w = k a w1.
Proof. unfold bind. now intros ->. Qed.

Lemma ret_ok {A} (a b : A) w w' : ret a w = (inr b, w') -> b = a /\ w' = w.
Proof. unfold ret. intros H. inversion H. auto. Qed.

Section Calls.

Variable C : Collaborators.

Lemma call_model_ok input w text w' :
  call_model C input w = (inr text, w') ->
  fst (model_invoke C w input) = inr text
  /\ trace w' = trace w ++ [ModelCall input (inr text)]
  /\ now w' = now w + snd (model_invoke C w input).
Proof.
  unfold call_model. destruct (model_invoke C w input) as [reply took].
  intros H. inversion H. subst. simpl. auto.
Qed.

Lemma call_model_run input w text :
  fst (model_invoke C w input) = inr text ->
  call_model C input w =
  (inr text, mkWorld (now w + snd (model_invoke C w input))
                     (trace w ++ [ModelCall input (inr text)])).
Proof.
  unfold call_model. destruct (model_invoke C w input) as [reply took].
  simpl. now intros ->.
Qed.

Lemma call_search_ok query w text w' :
  call_search C query w = (inr text, w') ->
  fst (search_run C w query) = inr text
  /\ trace w' = trace w ++ [SearchCall query (inr text)]
  /\ now w' = now w + snd (search_run C w query).
Proof.
  unfold call_search. destruct (search_run C w query) as [reply took].
  intros H. inversion H. subst. simpl. auto.
Qed.

Lemma call_search_run query w text :
  fst (search_run C w query) = inr text ->
  call_search C query w =
  (inr text, mkWorld (now w + snd (search_run C w query))
                     (trace w ++ [SearchCall query (inr text)])).
Proof.
  unfold call_search. destruct (search_run C w query) as [reply took].
  simpl. now intros ->.
Qed.

End Calls.

(** ** The stages, one by one *)

Section Stages.

Variable C : Collaborators.
Variable P : RefinePrompts.

(** *** The search loop *)

Lemma search_loop_ok queries : forall acc w docs w',
  search_loop C queries acc w = (inr docs, w') ->
  exists replies,
    length replies = length queries
    /\ docs = acc ++ map mkDocument replies
    /\ trace w' = trace w ++ search_events queries replies
    /\ now w + 5 * N.of_nat (length queries) <= now w'.
Proof.
  induction queries as [|q queries IH]; intros acc w docs w' H.
  - apply ret_ok in H as [-> ->]. exists []. simpl.
    rewrite !app_nil_r. repeat split. lia.
  - cbn [search_loop] in H.
    apply bind_ok in H as (text & w1 & Hcall & H).
    apply call_search_ok in Hcall as (_ & Htr & Hnow).
    unfold bind at 1 in H. cbn [sleep] in H.
    apply IH in H as (replies & Hlen & Hdocs & Htrace & Hclock).
    exists (text :: replies). cbn [trace now] in *.
    repeat split.
    + simpl. now rewrite Hlen.
    + rewrite Hdocs, <- app_assoc. reflexivity.
    + rewrite Htrace, Htr, <- !app_assoc. reflexivity.
    + rewrite Hnow in Hclock. cbn [length]. lia.
Qed.

Lemma search_loop_total :
  search_answers C ->
  forall queries acc w, exists docs w', search_loop C queries acc w = (inr docs, w').
Proof.
  intros HC. induction queries as [|q queries IH]; intros acc w.
  - now exists acc, w.
  - destruct (HC w q) as [text Ht].
    cbn [search_loop].
    rewrite (bind_run _ _ _ _ _ (call_search_run C q w text Ht)).
    unfold bind at 1. cbn [sleep]. apply IH.
Qed.

(** *** The batch of step-back questions *)

Lemma question_gen_ok q w a w' :
  question_gen C q w = (inr a, w') ->
  fst (model_invoke C w (prompt q)) = inr a
  /\ trace w' = trace w ++ [ModelCall (prompt q) (inr a)]
  /\ now w <= now w'.
Proof.
  unfold question_gen. intros H.
  apply bind_ok in H as (text & w1 & Hcall & H).
  apply ret_ok in H as [-> ->].
  apply call_model_ok in Hcall as (Hr & Htr & Hnow).
  unfold StrOutputParser_parse. repeat split; auto. lia.
Qed.

Lemma stepBackAll_ok questions : forall w answers w',
  stepBackAll C questions w = (inr answers, w') ->
  length answers = length questions
  /\ trace w' = trace w ++ answered_calls (map prompt questions) answers
  /\ now w <= now w'.
Proof.
  unfold stepBackAll.
  induction questions as [|q questions IH]; intros w answers w' H.
  - apply ret_ok in H as [-> ->]. simpl. rewrite app_nil_r.
    repeat split. lia.
  - cbn [batch] in H.
    apply bind_ok in H as (a & w1 & Hq & H).
    apply bind_ok in H as (rest & w2 & Hrest & H).
    apply ret_ok in H as [-> ->].
    apply question_gen_ok in Hq as (_ & Htr & Hnow).
    apply IH in Hrest as (Hlen & Htrace & Hclock).
    repeat split.
    + simpl. now rewrite Hlen.
    + rewrite Htrace, Htr, <- app_assoc. reflexivity.
    + lia.
Qed.

Lemma question_gen_run q w text :
  fst (model_invoke C w (prompt q)) = inr text ->
  question_gen C q w =
  (inr text, mkWorld (now w + snd (model_invoke C w (prompt q)))
                     (trace w ++ [ModelCall (prompt q) (inr text)])).
Proof.
  intros Ht. unfold question_gen.
  rewrite (bind_run _ _ _ _ _ (call_model_run C _ w text Ht)). reflexivity.
Qed.

Lemma stepBackAll_total :
  model_answers C ->
  forall questions w, exists answers w', stepBackAll C questions w = (inr answers, w').
Proof.
  intros HC. unfold stepBackAll.
  induction questions as [|q questions IH]; intros w.
  - now exists [], w.
  - destruct (HC w (prompt q)) as [text Ht].
    cbn [batch]. rewrite (bind_run _ _ _ _ _ (question_gen_run q w text Ht)).
    match goal with |- context [bind _ _ ?w1] =>
      destruct (IH w1) as (answers & w' & Hrest) end.
    rewrite (bind_run _ _ _ _ _ Hrest).
    now exists (text :: answers), w'.
Qed.

Lemma stepBackAll_stateless f :
  stateless_model C f ->
  forall questions w,
    fst (stepBackAll C questions w) = inr (map (fun q => f (prompt q)) questions).
Proof.
  intros HC. unfold stepBackAll.
  induction questions as [|q questions IH]; intros w; [reflexivity|].
  cbn [batch]. rewrite (bind_run _ _ _ _ _ (question_gen_run q w _ (HC w _))).
  match goal with |- context [bind _ _ ?w1] => specialize (IH w1) end.
  unfold bind.
  destruct (batch (question_gen C) questions _) as [[e|answers] w'];
    simpl in IH; [discriminate|].
  inversion IH. reflexivity.
Qed.

(** *** The refine chain *)

Lemma refine_steps_ok rest : forall s w out w',
  refine_steps C P s rest w = (inr out, w') ->
  exists outs,
    length outs = length rest
    /\ trace w' =
       trace w ++ answered_calls
         (map (fun sd => revise_prompt P (fst sd) (page_content (snd sd)))
              (combine (s :: outs) rest)) outs
    /\ out = last outs s.
Proof.
  induction rest as [|d rest IH]; intros s w out w' H.
  - apply ret_ok in H as [-> ->]. exists []. simpl.
    now rewrite app_nil_r.
  - cbn [refine_steps] in H.
    apply bind_ok in H as (revised & w1 & Hcall & H).
    apply call_model_ok in Hcall as (_ & Htr & _).
    apply IH in H as (outs & Hlen & Htrace & Hout).
    exists (revised :: outs). repeat split.
    + simpl. now rewrite Hlen.
    + rewrite Htrace, Htr, <- app_assoc. reflexivity.
    + now rewrite last_cons.
Qed.

Lemma refine_ok d0 rest w out w' :
  refine C P (d0 :: rest) w = (inr out, w') ->
  exists summaries,
    length summaries = length (d0 :: rest)
    /\ trace w' =
       trace w ++ answered_calls (refine_inputs P (d0 :: rest) summaries) summaries
    /\ out = last summaries [].
Proof.
  cbn [refine]. intros H.
  apply bind_ok in H as (seed & w1 & Hcall & H).
  apply call_model_ok in Hcall as (_ & Htr & _).
  apply refine_steps_ok in H as (outs & Hlen & Htrace & Hout).
  exists (seed :: outs). repeat split.
  - simpl. now rewrite Hlen.
  - rewrite Htrace, Htr, <- app_assoc. reflexivity.
  - now rewrite last_cons.
Qed.

Lemma refine_steps_total :
  model_answers C ->
  forall rest s w, exists out w', refine_steps C P s rest w = (inr out, w').
Proof.
  intros HC. induction rest as [|d rest IH]; intros s w.
  - now exists s, w.
  - destruct (HC w (revise_prompt P s (page_content d))) as [text Ht].
    cbn [refine_steps].
    rewrite (bind_run _ _ _ _ _ (call_model_run C _ w text Ht)). apply IH.
Qed.

Lemma refine_steps_stateless f :
  stateless_model C f ->
  forall rest s w,
    fst (refine_steps C P s rest w) =
    inr (fold_left (fun summary d => f (revise_prompt P summary (page_content d)))
                   rest s).
Proof.
  intros HC. induction rest as [|d rest IH]; intros s w; [reflexivity|].
  cbn [refine_steps fold_left].
  rewrite (bind_run _ _ _ _ _ (call_model_run C _ w _ (HC w _))). apply IH.
Qed.

End Stages.

(** ** Reading a trace *)

Lemma search_requests_events queries : forall replies,
  length replies = length queries ->
  search_requests (search_events queries replies) = queries.
Proof.
  induction queries as [|q queries IH]; intros [|r replies] H;
    simpl in *; try discriminate; [reflexivity|].
  f_equal. apply IH. lia.
Qed.

Lemma sleeps_events queries : forall replies,
  length replies = length queries ->
  sleeps (search_events queries replies) = repeat 5 (length queries).
Proof.
  induction queries as [|q queries IH]; intros [|r replies] H;
    simpl in *; try discriminate; [reflexivity|].
  f_equal. apply IH. lia.
Qed.

Lemma total_delay_repeat n : fold_right N.add 0 (repeat 5 n) = 5 * N.of_nat n.
Proof. induction n as [|n IH]; [reflexivity|]. cbn [repeat fold_right]. lia. Qed.

Lemma search_events_last queries : forall replies d,
  queries <> [] ->
  length replies = length queries ->
  last (search_events queries replies) d = Sleep 5.
Proof.
  induction queries as [|q queries IH]; intros [|r replies] d Hne H;
    simpl in H; try discriminate; [congruence|].
  destruct queries as [|q' queries].
  - destruct replies; [reflexivity|discriminate].
  - change (search_events (q :: q' :: queries) (r :: replies))
      with (SearchCall q (inr r) :: Sleep 5
              :: search_events (q' :: queries) replies).
    rewrite !last_cons. apply IH; [discriminate|]. lia.
Qed.

Lemma answered_calls_last inputs : forall replies d,
  replies <> [] ->
  length inputs = length replies ->
  exists input, last (answered_calls inputs replies) d
                = ModelCall input (inr (last replies [])).
Proof.
  induction inputs as [|i inputs IH]; intros [|r replies] d Hne H;
    simpl in H; try discriminate; [congruence|].
  destruct replies as [|r' replies].
  - destruct inputs; [|discriminate]. now exists i.
  - destruct inputs as [|i' inputs]; [discriminate|].
    destruct (IH (r' :: replies) (ModelCall i (inr r))) as [input Hl];
      [discriminate|simpl in *; lia|].
    exists input.
    change (answered_calls (i :: i' :: inputs) (r :: r' :: replies))
      with (ModelCall i (inr r) :: answered_calls (i' :: inputs) (r' :: replies)).
    rewrite !last_cons. rewrite last_cons in Hl. exact Hl.
Qed.

Lemma refine_inputs_length P docs summaries :
  length summaries = length docs ->
  length (refine_inputs P docs summaries) = length docs.
Proof.
  destruct docs as [|d0 rest]; [reflexivity|].
  intros H. cbn [refine_inputs length]. rewrite length_map, length_combine.
  simpl in H. lia.
Qed.

(** ** The whole run *)

Section Runs.

Variable C : Collaborators.
Variable P : RefinePrompts.

Lemma expand_ok question w ls w' :
  expand C question w = (inr ls, w') ->
  exists text,
    fst (model_invoke C w (QUERY_PROMPT question)) = inr text
    /\ ls = split nl (strip text)
    /\ trace w' = trace w ++ [ModelCall (QUERY_PROMPT question) (inr text)].
Proof.
  unfold expand, multiquery_chain. intros H.
  apply bind_ok in H as (res & w1 & H & Hret).
  apply ret_ok in Hret as [-> ->].
  apply bind_ok in H as (text & w2 & Hcall & Hret).
  apply ret_ok in Hret as [-> ->].
  apply call_model_ok in Hcall as (Hr & Htr & _).
  now exists text.
Qed.

Lemma collect_ok queries w docs w' :
  collect C queries w = (inr docs, w') ->
  length docs = length queries
  /\ trace w' = trace w ++ search_events queries (map page_content docs)
  /\ now w + 5 * N.of_nat (length queries) <= now w'.
Proof.
  unfold collect. intros H.
  apply search_loop_ok in H as (replies & Hlen & Hdocs & Htr & Hclock).
  simpl in Hdocs. subst docs.
  rewrite length_map, map_map, map_id. auto.
Qed.

Lemma pipeline_ok question w out w' :
  pipeline C P question w = (inr out, w') ->
  exists text answers docs summaries,
    fst (model_invoke C w (QUERY_PROMPT question)) = inr text
    /\ length answers = length (split nl (strip text))
    /\ length docs = length (split nl (strip text) ++ answers)
    /\ length summaries = length docs
    /\ trace w' =
       trace w
       ++ ModelCall (QUERY_PROMPT question) (inr text)
       :: answered_calls (map prompt (split nl (strip text))) answers
       ++ search_events (split nl (strip text) ++ answers) (map page_content docs)
       ++ answered_calls (refine_inputs P docs summaries) summaries
    /\ out = last summaries [].
Proof.
  unfold pipeline. intros H.
  apply bind_ok in H as (res & w1 & Hexp & H).
  apply bind_ok in H as (answers & w2 & Hsb & H).
  apply bind_ok in H as (docs & w3 & Hcol & H).
  apply bind_ok in H as (res' & w4 & Hchain & Hret).
  apply ret_ok in Hret as [-> ->].
  unfold multiquery_chain in Hexp.
  apply bind_ok in Hexp as (text & w0 & Hcall & Hret).
  apply ret_ok in Hret as [-> ->].
  apply call_model_ok in Hcall as (Hr & Htr1 & _).
  cbn [lines LineListOutputParser_parse] in *.
  apply stepBackAll_ok in Hsb as (Hlen2 & Htr2 & _).
  apply collect_ok in Hcol as (Hlen3 & Htr3 & _).
  unfold chain_invoke in Hchain.
  apply bind_ok in Hchain as (summary & w5 & Href & Hret).
  apply ret_ok in Hret as [-> ->]. cbn [output_text].
  destruct docs as [|d0 rest]; [discriminate|].
  apply refine_ok in Href as (summaries & Hlen4 & Htr4 & Hout).
  exists text, answers, (d0 :: rest), summaries.
  repeat split; auto.
  rewrite Htr4, Htr3, Htr2, Htr1, <- !app_assoc. reflexivity.
Qed.

End Runs.

Section MoreRuns.

Variable C : Collaborators.

Lemma stepBackAll_each questions : forall w answers w',
  stepBackAll C questions w = (inr answers, w') ->
  Forall2 (fun q a => exists w1 w2, stepBack C q w1 = (inr a, w2))
          questions answers.
Proof.
  unfold stepBackAll.
  induction questions as [|q questions IH]; intros w answers w' H.
  - apply ret_ok in H as [-> _]. constructor.
  - cbn [batch] in H.
    apply bind_ok in H as (a & w1 & Hq & H).
    apply bind_ok in H as (rest & w2 & Hrest & H).
    apply ret_ok in H as [-> ->].
    constructor; [now exists w, w1|]. eapply IH; eassumption.
Qed.

Lemma search_requests_app evs1 evs2 :
  search_requests (evs1 ++ evs2) = search_requests evs1 ++ search_requests evs2.
Proof. apply flat_map_app. Qed.

Lemma search_requests_answered inputs : forall replies,
  search_requests (answered_calls inputs replies) = [].
Proof.
  induction inputs as [|i inputs IH]; intros [|r replies]; try reflexivity.
  change (answered_calls (i :: inputs) (r :: replies))
    with (ModelCall i (inr r) :: answered_calls inputs replies).
  cbn [search_requests flat_map app]. apply IH.
Qed.

End MoreRuns.

Section Totality.

Variable C : Collaborators.
Variable P : RefinePrompts.

Lemma expand_total :
  model_answers C ->
  forall question w, exists ls w', expand C question w = (inr ls, w').
Proof.
  intros HC question w. destruct (HC w (QUERY_PROMPT question)) as [text Ht].
  unfold expand, multiquery_chain.
  rewrite (bind_run _ _ _ _ _
             (bind_run _ _ _ _ _ (call_model_run C _ w text Ht))).
  cbv beta. unfold ret. eauto.
Qed.

Lemma refine_total :
  model_answers C ->
  forall d0 rest w, exists out w', refine C P (d0 :: rest) w = (inr out, w').
Proof.
  intros HC d0 rest w.
  destruct (HC w (seed_prompt P (page_content d0))) as [text Ht].
  cbn [refine]. rewrite (bind_run _ _ _ _ _ (call_model_run C _ w text Ht)).
  cbv beta. apply (refine_steps_total C P HC).
Qed.

Lemma pipeline_total :
  model_answers C -> search_answers C ->
  forall question w, exists out w', pipeline C P question w = (inr out, w').
Proof.
  intros HM HS question w.
  destruct (HM w (QUERY_PROMPT question)) as [text Ht].
  unfold pipeline, multiquery_chain.
  rewrite (bind_run _ _ _ _ _
             (bind_run _ _ _ _ _ (call_model_run C _ w text Ht))).
  cbv beta. unfold ret at 1. cbn [lines LineListOutputParser_parse].
  match goal with |- context [bind (stepBackAll C ?ls) _ ?w1] =>
    destruct (stepBackAll_total C HM ls w1) as (answers & w2 & Hsb) end.
  rewrite (bind_run _ _ _ _ _ Hsb). cbv beta.
  destruct (search_loop_total C HS (split nl (strip text) ++ answers) [] w2)
    as (docs & w3 & Hcol).
  fold (collect C (split nl (strip text) ++ answers)) in Hcol.
  rewrite (bind_run _ _ _ _ _ Hcol). cbv beta.
  pose proof (collect_ok C _ _ _ _ Hcol) as (Hlen & _ & _).
  destruct docs as [|d0 rest].
  - exfalso. rewrite length_app in Hlen.
    pose proof (split_not_nil nl (strip text)) as Hn.
    destruct (split nl (strip text)); [congruence|discriminate].
  - destruct (refine_total HM d0 rest w3) as (out & w4 & Href).
    unfold chain_invoke.
    rewrite (bind_run _ _ _ _ _ (bind_run _ _ _ _ _ Href)).
    cbv beta. unfold ret. cbn [output_text]. eauto.
Qed.

End Totality.

(** ** The Query Expander *)

(** C4, as amended.  [expand] returns whenever the model answers, and when it
    returns, the model's reply was stripped as a whole and cut at every
    newline: no element contains a newline, joining the elements with newlines
    gives back the stripped reply, there is one element more than there are
    newlines in the stripped reply (any number, not three), the first element
    has no leading and the last no trailing whitespace.  Lines in between keep
    their own padding and blank lines stay. *)
Theorem expand_lines (C : Collaborators) (question : pystr) (w : World) :
  (model_answers C -> exists ls w', expand C question w = (inr ls, w'))
  /\ forall ls w',
       expand C question w = (inr ls, w') ->
       exists text,
         fst (model_invoke C w (QUERY_PROMPT question)) = inr text
         /\ Forall (fun l => ~ In nl l) ls
         /\ join nl ls = strip text
         /\ length ls = S (count_occ N.eq_dec (strip text) nl)
         /\ lstrip (hd [] ls) = hd [] ls
         /\ rstrip (last ls []) = last ls [].
Proof.
  split; [intros HC; apply (expand_total C HC)|].
  intros ls w' H. apply expand_ok in H as (text & Hr & -> & _).
  exists text. repeat split.
  - exact Hr.
  - apply split_fields_free.
  - apply join_split.
  - apply split_length.
  - apply clean_head_lstrip.
    destruct (split_hd_prefix nl (strip text)) as [rest E].
    apply (clean_head_prefix _ rest). rewrite <- E. apply strip_clean_head.
  - apply clean_tail_rstrip.
    destruct (split_last_suffix nl (strip text)) as [pre E].
    apply (clean_tail_suffix pre). rewrite <- E. apply strip_clean_tail.
Qed.

Lemma expand_lines_witness :
  model_answers Fixtures.stub
  /\ (exists ls w',
        expand Fixtures.stub Fixtures.question Fixtures.w0 = (inr ls, w'))
  /\ expand Fixtures.stub Fixtures.question Fixtures.w0
     = (inr Fixtures.recorded_lines,
        snd (expand Fixtures.stub Fixtures.question Fixtures.w0))
  /\ Forall (fun l => ~ In nl l) Fixtures.recorded_lines
  /\ length Fixtures.recorded_lines = 3%nat.
Proof.
  assert (HA : model_answers Fixtures.stub)
    by (intros w i; eexists; reflexivity).
  assert (H : expand Fixtures.stub Fixtures.question Fixtures.w0
              = (inr Fixtures.recorded_lines,
                 snd (expand Fixtures.stub Fixtures.question Fixtures.w0)))
    by (vm_compute; reflexivity).
  destruct (expand_lines Fixtures.stub Fixtures.question Fixtures.w0)
    as [Htot Hok].
  split; [exact HA|]. split; [exact (Htot HA)|]. split; [exact H|].
  destruct (Hok _ _ H) as (text & _ & Hfree & _).
  split; [exact Hfree|reflexivity].
Defined.

(** C4, as stated, fails: a reply with a padded line, a blank line and another
    padded line comes back as three elements, one empty and two that [strip]
    would shorten. *)
Lemma expand_keeps_blank_and_padded_lines :
  Fixtures.question <> []
  /\ fst (expand Fixtures.untidy Fixtures.question Fixtures.w0)
     = inr [lit "1. a "; []; lit " 2. b"]
  /\ ~ Forall well_formed_line [lit "1. a "; []; lit " 2. b"].
Proof.
  split; [discriminate|]. split; [vm_compute; reflexivity|].
  intros H. inversion H as [|? ? [_ [Hs _]] _]. vm_compute in Hs. discriminate.
Qed.

(** C5, as amended.  When the model's reply is the empty text, [expand]
    returns, without an error, the sequence whose only element is the empty
    string. *)
Theorem expand_empty_reply (C : Collaborators) (question : pystr) (w : World) :
  fst (model_invoke C w (QUERY_PROMPT question)) = inr [] ->
  fst (expand C question w) = inr [[]].
Proof.
  intros H. unfold expand, multiquery_chain.
  rewrite (bind_run _ _ _ _ _
             (bind_run _ _ _ _ _ (call_model_run C _ w [] H))).
  reflexivity.
Qed.

Lemma expand_empty_reply_witness :
  fst (model_invoke Fixtures.silent Fixtures.w0 (QUERY_PROMPT Fixtures.question))
  = inr []
  /\ fst (expand Fixtures.silent Fixtures.question Fixtures.w0) = inr [[]].
Proof.
  assert (H : fst (model_invoke Fixtures.silent Fixtures.w0
                     (QUERY_PROMPT Fixtures.question)) = inr [])
    by reflexivity.
  split; [exact H|]. exact (expand_empty_reply _ _ _ H).
Defined.

(** C5, as stated, fails: on the empty reply the result has one element. *)
Lemma expand_empty_reply_not_empty :
  fst (model_invoke Fixtures.silent Fixtures.w0 (QUERY_PROMPT Fixtures.question))
  = inr []
  /\ fst (expand Fixtures.silent Fixtures.question Fixtures.w0) = inr [[]]
  /\ fst (expand Fixtures.silent Fixtures.question Fixtures.w0) <> inr [].
Proof.
  split; [reflexivity|]. split; [vm_compute; reflexivity|].
  vm_compute. discriminate.
Qed.

(** ** The Web Search Collector *)

(** C6.  For every sequence of queries, [collect] returns whenever the search
    provider answers; and when it returns, there is one document per query,
    the run added to the trace exactly one search request per query, in input
    order and with repeated queries repeated, and the i-th document holds the
    whole text returned for the i-th request. *)
Theorem collect_one_request_per_query (C : Collaborators)
  (queries : list pystr) (w : World) :
  (search_answers C -> exists docs w', collect C queries w = (inr docs, w'))
  /\ forall docs w',
       collect C queries w = (inr docs, w') ->
       length docs = length queries
       /\ trace w' = trace w ++ search_events queries (map page_content docs)
       /\ search_requests (search_events queries (map page_content docs))
          = queries.
Proof.
  split.
  - intros HC. apply search_loop_total. exact HC.
  - intros docs w' H. apply collect_ok in H as (Hlen & Htr & _).
    repeat split; auto.
    apply search_requests_events. now rewrite length_map.
Qed.

Lemma collect_one_request_per_query_witness :
  search_answers Fixtures.stub
  /\ (exists docs w',
        collect Fixtures.stub [lit "a"; lit "a"] Fixtures.w0 = (inr docs, w'))
  /\ trace (snd (collect Fixtures.stub [lit "a"; lit "a"] Fixtures.w0))
     = [ SearchCall (lit "a") (inr (lit "results for: a")); Sleep 5;
         SearchCall (lit "a") (inr (lit "results for: a")); Sleep 5 ].
Proof.
  assert (HA : search_answers Fixtures.stub)
    by (intros w q; eexists; reflexivity).
  destruct (collect_one_request_per_query Fixtures.stub [lit "a"; lit "a"]
              Fixtures.w0) as [Htot Hok].
  split; [exact HA|]. split; [exact (Htot HA)|].
  assert (Hrun : collect Fixtures.stub [lit "a"; lit "a"] Fixtures.w0
                 = (inr [mkDocument (lit "results for: a");
                         mkDocument (lit "results for: a")],
                    snd (collect Fixtures.stub [lit "a"; lit "a"] Fixtures.w0)))
    by (vm_compute; reflexivity).
  destruct (Hok _ _ Hrun) as (_ & Htr & _). exact Htr.
Defined.

(** C7.  [collect] returns whenever the search provider answers, and when it
    returns on k queries, its requests were made one after the other, each
    followed by a sleep of 5 before the next one, and the clock advanced by at
    least (k - 1) * 5. *)
Theorem collect_elapsed_time (C : Collaborators) (queries : list pystr)
  (w : World) :
  (search_answers C -> exists docs w', collect C queries w = (inr docs, w'))
  /\ forall docs w',
       collect C queries w = (inr docs, w') ->
       trace w' = trace w ++ search_events queries (map page_content docs)
       /\ ((Z.of_nat (length queries) - 1) * 5
           <= Z.of_N (now w') - Z.of_N (now w))%Z.
Proof.
  split; [intros HC; apply (search_loop_total C HC)|].
  intros docs w' H. apply collect_ok in H as (_ & Htr & Hclock).
  split; [exact Htr|]. lia.
Qed.

Lemma collect_elapsed_time_witness :
  search_answers Fixtures.stub
  /\ (exists docs w',
        collect Fixtures.stub [lit "a"; lit "b"; lit "c"] Fixtures.w0
        = (inr docs, w'))
  /\ snd (collect Fixtures.stub [lit "a"; lit "b"; lit "c"] Fixtures.w0)
     = mkWorld 21
         [ SearchCall (lit "a") (inr (lit "results for: a")); Sleep 5;
           SearchCall (lit "b") (inr (lit "results for: b")); Sleep 5;
           SearchCall (lit "c") (inr (lit "results for: c")); Sleep 5 ]
  /\ ((3 - 1) * 5 <= 21 - 0)%Z.
Proof.
  assert (HA : search_answers Fixtures.stub)
    by (intros w q; eexists; reflexivity).
  assert (Hrun : collect Fixtures.stub [lit "a"; lit "b"; lit "c"] Fixtures.w0
                 = (inr (map (fun q => mkDocument (Fixtures.stub_search q))
                             [lit "a"; lit "b"; lit "c"]),
                    mkWorld 21
                      (search_events [lit "a"; lit "b"; lit "c"]
                         (map Fixtures.stub_search
                              [lit "a"; lit "b"; lit "c"]))))
    by (vm_compute; reflexivity).
  destruct (collect_elapsed_time Fixtures.stub [lit "a"; lit "b"; lit "c"]
              Fixtures.w0) as [Htot Hok].
  split; [exact HA|]. split; [exact (Htot HA)|].
  split; [vm_compute; reflexivity|].
  exact (proj2 (Hok _ _ Hrun)).
Defined.

(** C9.  For a non-empty sequence of k queries [collect] returns whenever the
    search provider answers, and when it returns, the run slept k times, 5
    units each, once after every request, the last action of the run being the
    sleep after the final request; the total delay is k * 5, which is more
    than (k - 1) * 5. *)
Theorem collect_sleeps_after_every_request (C : Collaborators)
  (queries : list pystr) (w : World) :
  queries <> [] ->
  (search_answers C -> exists docs w', collect C queries w = (inr docs, w'))
  /\ forall docs w',
       collect C queries w = (inr docs, w') ->
       exists evs,
         trace w' = trace w ++ evs
         /\ evs = search_events queries (map page_content docs)
         /\ search_requests evs = queries
         /\ sleeps evs = repeat 5 (length queries)
         /\ last evs (Sleep 0) = Sleep 5
         /\ total_delay evs = 5 * N.of_nat (length queries)
         /\ ((Z.of_nat (length queries) - 1) * 5
             < Z.of_N (total_delay evs))%Z.
Proof.
  intros Hne. split; [intros HC; apply (search_loop_total C HC)|].
  intros docs w' H. apply collect_ok in H as (Hlen & Htr & _).
  assert (Hl : length (map page_content docs) = length queries)
    by now rewrite length_map.
  exists (search_events queries (map page_content docs)).
  assert (Ht : total_delay (search_events queries (map page_content docs))
               = 5 * N.of_nat (length queries)).
  { unfold total_delay. rewrite sleeps_events by exact Hl.
    apply total_delay_repeat. }
  repeat split.
  - exact Htr.
  - now apply search_requests_events.
  - now apply sleeps_events.
  - now apply search_events_last.
  - exact Ht.
  - rewrite Ht. lia.
Qed.

Lemma collect_sleeps_after_every_request_witness :
  [lit "a"] <> []
  /\ search_answers Fixtures.stub
  /\ (exists docs w',
        collect Fixtures.stub [lit "a"] Fixtures.w0 = (inr docs, w'))
  /\ exists evs,
       trace (snd (collect Fixtures.stub [lit "a"] Fixtures.w0))
       = trace Fixtures.w0 ++ evs
       /\ sleeps evs = [5]
       /\ total_delay evs = 5.
Proof.
  assert (Hne : [lit "a"] <> []) by discriminate.
  assert (HA : search_answers Fixtures.stub)
    by (intros w q; eexists; reflexivity).
  assert (Hrun : collect Fixtures.stub [lit "a"] Fixtures.w0
                 = (inr [mkDocument (lit "results for: a")],
                    snd (collect Fixtures.stub [lit "a"] Fixtures.w0)))
    by (vm_compute; reflexivity).
  destruct (collect_sleeps_after_every_request Fixtures.stub [lit "a"]
              Fixtures.w0 Hne) as [Htot Hok].
  split; [exact Hne|]. split; [exact HA|]. split; [exact (Htot HA)|].
  destruct (Hok _ _ Hrun) as (evs & Htr & _ & _ & Hs & _ & Ht & _).
  exists evs. repeat split; assumption.
Defined.

(** ** The Step-Back Generator *)

(** C8.  [stepBackAll] returns whenever the model answers.  When it returns on
    k questions there are k answers, the run made one model call per
    question, in input order, each with the prompt built from that question
    alone, and the i-th answer is a result of the single form [stepBack] on
    the i-th question.  With a model whose reply depends on its input only,
    the answers are the single form's results pointwise, whatever else is in
    the batch. *)
Theorem stepBackAll_pointwise (C : Collaborators) (questions : list pystr)
  (w : World) :
  (model_answers C ->
   exists answers w', stepBackAll C questions w = (inr answers, w'))
  /\ (forall answers w',
        stepBackAll C questions w = (inr answers, w') ->
        length answers = length questions
        /\ trace w' = trace w ++ answered_calls (map prompt questions) answers
        /\ Forall2 (fun q a => exists w1 w2, stepBack C q w1 = (inr a, w2))
                   questions answers)
  /\ (forall f,
        stateless_model C f ->
        fst (stepBackAll C questions w)
        = inr (map (fun q => f (prompt q)) questions)
        /\ forall q w1, fst (stepBack C q w1) = inr (f (prompt q))).
Proof.
  split; [|split].
  - intros HC. now apply stepBackAll_total.
  - intros answers w' H.
    pose proof (stepBackAll_each C _ _ _ _ H) as Heach.
    apply stepBackAll_ok in H as (Hlen & Htr & _). auto.
  - intros f Hf. split.
    + now apply stepBackAll_stateless.
    + intros q w1. unfold stepBack.
      now rewrite (question_gen_run C q w1 _ (Hf w1 _)).
Qed.

Lemma stepBackAll_pointwise_witness :
  model_answers Fixtures.stub
  /\ stateless_model Fixtures.stub Fixtures.stub_reply
  /\ fst (stepBackAll Fixtures.stub Fixtures.recorded_lines Fixtures.w0)
     = inr (map (fun q => Fixtures.stub_reply (prompt q))
                Fixtures.recorded_lines)
  /\ exists answers w',
       stepBackAll Fixtures.stub Fixtures.recorded_lines Fixtures.w0
       = (inr answers, w')
       /\ length answers = 3%nat.
Proof.
  assert (HA : model_answers Fixtures.stub)
    by (intros w i; eexists; reflexivity).
  assert (HS : stateless_model Fixtures.stub Fixtures.stub_reply)
    by (intros w i; reflexivity).
  destruct (stepBackAll_pointwise Fixtures.stub Fixtures.recorded_lines
              Fixtures.w0) as (Htot & Hok & Hst).
  split; [exact HA|]. split; [exact HS|].
  split; [exact (proj1 (Hst _ HS))|].
  destruct (Htot HA) as (answers & w' & Hrun).
  exists answers, w'. split; [exact Hrun|].
  exact (proj1 (Hok _ _ Hrun)).
Defined.

(** C10.  [stepBack] returns the model's reply as it is, whatever it contains;
    and in a run of the whole pipeline the queries searched are the variants
    followed by the step-back answers, each answer being, unchanged, the text
    the model replied to that variant's step-back prompt and the query of one
    search request. *)
Theorem stepBack_verbatim (C : Collaborators) (P : RefinePrompts) :
  (forall q w text,
     fst (model_invoke C w (prompt q)) = inr text ->
     fst (stepBack C q w) = inr text)
  /\ (forall question w out w',
        pipeline C P question w = (inr out, w') ->
        exists text answers replies later,
          length answers = length (split nl (strip text))
          /\ length replies = length (split nl (strip text) ++ answers)
          /\ trace w' =
             trace w
             ++ ModelCall (QUERY_PROMPT question) (inr text)
             :: answered_calls (map prompt (split nl (strip text))) answers
             ++ search_events (split nl (strip text) ++ answers) replies
             ++ later
          /\ search_requests later = []
          /\ search_requests (trace w')
             = search_requests (trace w) ++ split nl (strip text) ++ answers).
Proof.
  split.
  - intros q w text H. unfold stepBack.
    now rewrite (question_gen_run C q w text H).
  - intros question w out w' H.
    apply pipeline_ok in H
      as (text & answers & docs & summaries & _ & Hl1 & Hl2 & _ & Htr & _).
    exists text, answers, (map page_content docs),
      (answered_calls (refine_inputs P docs summaries) summaries).
    assert (Hl3 : length (map page_content docs)
                  = length (split nl (strip text) ++ answers))
      by now rewrite length_map.
    repeat split; auto.
    + apply search_requests_answered.
    + rewrite Htr. rewrite search_requests_app.
      change (search_requests (?e :: ?l))
        with (search_requests [e] ++ search_requests l).
      rewrite !search_requests_app, !search_requests_answered.
      rewrite search_requests_events by exact Hl3.
      simpl. now rewrite app_nil_r.
Qed.

Lemma stepBack_verbatim_witness :
  fst (model_invoke Fixtures.chatty Fixtures.w0 (prompt (lit "q")))
  = inr Fixtures.recorded_stepback
  /\ fst (stepBack Fixtures.chatty (lit "q") Fixtures.w0)
     = inr Fixtures.recorded_stepback
  /\ In nl Fixtures.recorded_stepback
  /\ pipeline Fixtures.chatty Fixtures.stub_prompts Fixtures.question Fixtures.w0
     = (inr Fixtures.recorded_stepback,
        snd (pipeline Fixtures.chatty Fixtures.stub_prompts
               Fixtures.question Fixtures.w0))
  /\ exists text answers,
       length answers = length (split nl (strip text))
       /\ search_requests
            (trace (snd (pipeline Fixtures.chatty Fixtures.stub_prompts
                           Fixtures.question Fixtures.w0)))
          = split nl (strip text) ++ answers.
Proof.
  assert (H1 : fst (model_invoke Fixtures.chatty Fixtures.w0 (prompt (lit "q")))
               = inr Fixtures.recorded_stepback) by reflexivity.
  assert (Hrun : pipeline Fixtures.chatty Fixtures.stub_prompts
                   Fixtures.question Fixtures.w0
                 = (inr Fixtures.recorded_stepback,
                    snd (pipeline Fixtures.chatty Fixtures.stub_prompts
                           Fixtures.question Fixtures.w0)))
    by (vm_compute; reflexivity).
  destruct (stepBack_verbatim Fixtures.chatty Fixtures.stub_prompts)
    as [Hone Hall].
  split; [exact H1|]. split; [exact (Hone _ _ _ H1)|].
  split; [vm_compute; tauto|]. split; [exact Hrun|].
  destruct (Hall _ _ _ _ Hrun)
    as (text & answers & replies & later & Hlen & _ & _ & _ & Hreq).
  exists text, answers. split; [exact Hlen|exact Hreq].
Defined.

(** ** The Refine Summarizer *)

(** C1.  On a non-empty sequence of documents [refine] returns whenever the
    model answers.  When it returns, the run made one model call per
    document: first the seed prompt over the first document alone, then, for
    each further document in order, the revision prompt over the running
    summary (the reply to the call before) and that document; the result is
    the reply to the last call.  With a model whose reply depends on its input
    only, this is a left fold over the remaining documents started from the
    seed summary.  On one document the only call is the seed call and its
    reply is the result. *)
Theorem refine_left_fold (C : Collaborators) (P : RefinePrompts)
  (d0 : Document) (rest : list Document) (w : World) :
  (model_answers C ->
   exists out w', refine C P (d0 :: rest) w = (inr out, w'))
  /\ (forall out w',
        refine C P (d0 :: rest) w = (inr out, w') ->
        exists summaries,
          length summaries = length (d0 :: rest)
          /\ trace w' =
             trace w
             ++ answered_calls (refine_inputs P (d0 :: rest) summaries) summaries
          /\ out = last summaries [])
  /\ (forall f,
        stateless_model C f ->
        fst (refine C P (d0 :: rest) w)
        = inr (fold_left
                 (fun summary d => f (revise_prompt P summary (page_content d)))
                 rest (f (seed_prompt P (page_content d0)))))
  /\ (forall out w',
        rest = [] ->
        refine C P (d0 :: rest) w = (inr out, w') ->
        trace w' = trace w ++ [ModelCall (seed_prompt P (page_content d0)) (inr out)]).
Proof.
  split; [|split; [|split]].
  - intros HC. destruct (HC w (seed_prompt P (page_content d0))) as [text Ht].
    cbn [refine].
    rewrite (bind_run _ _ _ _ _ (call_model_run C _ w text Ht)).
    cbv beta. apply (refine_steps_total C P HC).
  - intros out w' H. exact (refine_ok C P _ _ _ _ _ H).
  - intros f Hf. cbn [refine].
    rewrite (bind_run _ _ _ _ _ (call_model_run C _ w _ (Hf w _))).
    cbv beta. apply (refine_steps_stateless C P f Hf).
  - intros out w' -> H. cbn [refine refine_steps] in H.
    apply bind_ok in H as (seed & w1 & Hcall & Hret).
    apply ret_ok in Hret as [-> ->].
    now apply call_model_ok in Hcall as (_ & Htr & _).
Qed.

Lemma refine_left_fold_witness :
  model_answers Fixtures.stub
  /\ stateless_model Fixtures.stub Fixtures.stub_reply
  /\ (exists out w',
        refine Fixtures.stub Fixtures.stub_prompts
               [mkDocument (lit "one"); mkDocument (lit "two")] Fixtures.w0
        = (inr out, w'))
  /\ fst (refine Fixtures.stub Fixtures.stub_prompts
                 [mkDocument (lit "one"); mkDocument (lit "two")] Fixtures.w0)
     = inr (lit "[Revise: [Summarize: one]]")
  /\ trace (snd (refine Fixtures.stub Fixtures.stub_prompts
                        [mkDocument (lit "one")] Fixtures.w0))
     = [ModelCall (StringPromptValue (lit "Summarize: one"))
                  (inr (lit "[Summarize: one]"))].
Proof.
  assert (HA : model_answers Fixtures.stub)
    by (intros w i; eexists; reflexivity).
  assert (HS : stateless_model Fixtures.stub Fixtures.stub_reply)
    by (intros w i; reflexivity).
  destruct (refine_left_fold Fixtures.stub Fixtures.stub_prompts
              (mkDocument (lit "one")) [mkDocument (lit "two")] Fixtures.w0)
    as (Htot & _ & Hfold & _).
  destruct (refine_left_fold Fixtures.stub Fixtures.stub_prompts
              (mkDocument (lit "one")) [] Fixtures.w0)
    as (_ & _ & _ & Hone).
  split; [exact HA|]. split; [exact HS|]. split; [exact (Htot HA)|].
  split; [rewrite (Hfold _ HS); vm_compute; reflexivity|].
  assert (Hrun : refine Fixtures.stub Fixtures.stub_prompts
                   [mkDocument (lit "one")] Fixtures.w0
                 = (inr (lit "[Summarize: one]"),
                    snd (refine Fixtures.stub Fixtures.stub_prompts
                           [mkDocument (lit "one")] Fixtures.w0)))
    by (vm_compute; reflexivity).
  exact (Hone _ _ eq_refl Hrun).
Defined.

(** C2.  On the empty sequence [refine] fails with [EmptyInput]: no summary is
    returned and no call is made; [chain.invoke] fails in the same way. *)
Theorem refine_empty_input (C : Collaborators) (P : RefinePrompts) (w : World) :
  refine C P [] w = (inl EmptyInput, w)
  /\ chain_invoke C P [] w = (inl EmptyInput, w).
Proof. split; reflexivity. Qed.

(** ** End to end *)

Lemma last_app_cons {A} (l : list A) a l' d :
  last (l ++ a :: l') d = last (a :: l') d.
Proof.
  induction l as [|b l IH]; [reflexivity|].
  change ((b :: l) ++ a :: l') with (b :: (l ++ a :: l')).
  destruct (l ++ a :: l') as [|x xs] eqn:E; [destruct l; discriminate|].
  change (last (b :: x :: xs) d) with (last (x :: xs) d).
  exact IH.
Qed.

(** C3.  The pipeline returns on every question whenever the model and the
    search provider answer.  In a run that returns and in which the Query
    Expander produced 3 variants, one step-back answer was generated per
    variant, 6 search requests were made, for the variants first and then for
    the step-back answers, 6 documents were collected, one per request in that
    order, and the refine chain worked through them in that same order; the
    pipeline's value is the reply to the last refine call, which is the last
    action of the run. *)
Theorem pipeline_six_documents (C : Collaborators) (P : RefinePrompts)
  (question : pystr) (w : World) :
  (model_answers C -> search_answers C ->
   exists out w', pipeline C P question w = (inr out, w'))
  /\ forall out w' ls w1,
       pipeline C P question w = (inr out, w') ->
       expand C question w = (inr ls, w1) ->
       length ls = 3%nat ->
       exists answers docs summaries,
         length answers = 3%nat
         /\ length docs = 6%nat
         /\ length summaries = 6%nat
         /\ trace w' =
            trace w1
            ++ answered_calls (map prompt ls) answers
            ++ search_events (ls ++ answers) (map page_content docs)
            ++ answered_calls (refine_inputs P docs summaries) summaries
         /\ out = last summaries []
         /\ exists input,
              last (trace w') (Sleep 0) = ModelCall input (inr out).
Proof.
  split; [intros HM HS; apply (pipeline_total C P HM HS)|].
  intros out w' ls w1 Hrun Hexp Hthree.
  apply pipeline_ok in Hrun
    as (text & answers & docs & summaries & Hr & Hl1 & Hl2 & Hl3 & Htr & Hout).
  apply expand_ok in Hexp as (text' & Hr' & Hls & Htr1).
  assert (text' = text) by congruence. subst text'.
  rewrite <- Hls in *.
  rewrite length_app in Hl2.
  assert (Hsix : length summaries = 6%nat) by lia.
  exists answers, docs, summaries.
  split; [lia|]. split; [lia|]. split; [exact Hsix|].
  assert (Htr' : trace w' =
                 trace w1
                 ++ answered_calls (map prompt ls) answers
                 ++ search_events (ls ++ answers) (map page_content docs)
                 ++ answered_calls (refine_inputs P docs summaries) summaries).
  { rewrite Htr, Htr1, <- app_assoc. reflexivity. }
  split; [exact Htr'|]. split; [exact Hout|].
  assert (Hne : summaries <> []) by (destruct summaries; discriminate).
  assert (Hin : length (refine_inputs P docs summaries) = length summaries)
    by (rewrite refine_inputs_length; lia).
  destruct (answered_calls_last _ _ (Sleep 0) Hne Hin) as [input Hlast].
  exists input. rewrite Htr', !app_assoc.
  destruct (answered_calls (refine_inputs P docs summaries) summaries)
    as [|e evs] eqn:E.
  - destruct summaries as [|s ss]; [congruence|].
    destruct docs; discriminate.
  - rewrite last_app_cons. rewrite Hlast, Hout. reflexivity.
Qed.

Lemma pipeline_six_documents_witness :
  model_answers Fixtures.stub
  /\ search_answers Fixtures.stub
  /\ (exists out w',
        pipeline Fixtures.stub Fixtures.stub_prompts Fixtures.question
                 Fixtures.w0 = (inr out, w'))
  /\ pipeline Fixtures.stub Fixtures.stub_prompts Fixtures.question Fixtures.w0
     = (inr (lit "[Revise: [Revise: [Revise]"),
        snd (pipeline Fixtures.stub Fixtures.stub_prompts
               Fixtures.question Fixtures.w0))
  /\ expand Fixtures.stub Fixtures.question Fixtures.w0
     = (inr Fixtures.recorded_lines,
        snd (expand Fixtures.stub Fixtures.question Fixtures.w0))
  /\ length Fixtures.recorded_lines = 3%nat
  /\ length (search_requests
               (trace (snd (pipeline Fixtures.stub Fixtures.stub_prompts
                              Fixtures.question Fixtures.w0)))) = 6%nat
  /\ exists input,
       last (trace (snd (pipeline Fixtures.stub Fixtures.stub_prompts
                           Fixtures.question Fixtures.w0))) (Sleep 0)
       = ModelCall input (inr (lit "[Revise: [Revise: [Revise]")).
Proof.
  assert (HM : model_answers Fixtures.stub)
    by (intros w i; eexists; reflexivity).
  assert (HS : search_answers Fixtures.stub)
    by (intros w q; eexists; reflexivity).
  assert (Hrun : pipeline Fixtures.stub Fixtures.stub_prompts
                   Fixtures.question Fixtures.w0
                 = (inr (lit "[Revise: [Revise: [Revise]"),
                    snd (pipeline Fixtures.stub Fixtures.stub_prompts
                           Fixtures.question Fixtures.w0)))
    by (vm_compute; reflexivity).
  assert (Hexp : expand Fixtures.stub Fixtures.question Fixtures.w0
                 = (inr Fixtures.recorded_lines,
                    snd (expand Fixtures.stub Fixtures.question Fixtures.w0)))
    by (vm_compute; reflexivity).
  assert (Hthree : length Fixtures.recorded_lines = 3%nat) by reflexivity.
  destruct (pipeline_six_documents Fixtures.stub Fixtures.stub_prompts
              Fixtures.question Fixtures.w0) as [Htot Hok].
  split; [exact HM|]. split; [exact HS|]. split; [exact (Htot HM HS)|].
  split; [exact Hrun|]. split; [exact Hexp|]. split; [exact Hthree|].
  split; [vm_compute; reflexivity|].
  destruct (Hok _ _ _ _ Hrun Hexp Hthree)
    as (answers & docs & summaries & _ & _ & _ & _ & _ & Hlast).
  exact Hlast.
Defined.

(** * Further properties of the notebook's code *)

(** ** [strip], [split] and [join] *)

Lemma lstrip_whitespace_app a s : whitespace a -> lstrip (a ++ s) = lstrip s.
Proof.
  induction 1 as [|c a Hc _ IH]; [reflexivity|].
  simpl. now rewrite Hc.
Qed.

Lemma lstrip_decomp s : exists a, whitespace a /\ s = a ++ lstrip s.
Proof.
  induction s as [|c s (a & Ha & E)].
  - exists []. split; [constructor|reflexivity].
  - simpl. destruct (py_isspace c) eqn:Hc.
    + exists (c :: a). split; [now constructor|]. simpl. now f_equal.
    + exists []. split; [constructor|reflexivity].
Qed.

Lemma whitespace_rev s : whitespace s -> whitespace (rev s).
Proof. apply Forall_rev. Qed.

Lemma rstrip_decomp s : exists b, whitespace b /\ s = rstrip s ++ b.
Proof.
  destruct (lstrip_decomp (rev s)) as (a & Ha & E).
  exists (rev a). split; [now apply whitespace_rev|].
  unfold rstrip. rewrite <- rev_app_distr, <- E. now rewrite rev_involutive.
Qed.

Lemma strip_decomp s :
  exists a b, whitespace a /\ whitespace b /\ s = a ++ strip s ++ b.
Proof.
  destruct (lstrip_decomp s) as (a & Ha & E).
  destruct (rstrip_decomp (lstrip s)) as (b & Hb & E').
  exists a, b. repeat split; auto. unfold strip. now rewrite <- E'.
Qed.

Lemma lstrip_nil_iff s : lstrip s = [] <-> whitespace s.
Proof.
  split.
  - induction s as [|c s IH]; [constructor|].
    simpl. destruct (py_isspace c) eqn:Hc; [|discriminate].
    intros H. constructor; [exact Hc|exact (IH H)].
  - intros H. rewrite <- (app_nil_r s). now rewrite lstrip_whitespace_app.
Qed.

Lemma strip_nil_iff s : strip s = [] <-> whitespace s.
Proof.
  split.
  - intros H. destruct (strip_decomp s) as (a & b & Ha & Hb & E).
    rewrite H in E. simpl in E. rewrite E. now apply Forall_app.
  - intros H. unfold strip. apply lstrip_nil_iff in H. now rewrite H.
Qed.

Lemma rstrip_whitespace_app s b : whitespace b -> rstrip (s ++ b) = rstrip s.
Proof.
  intros Hb. unfold rstrip. rewrite rev_app_distr.
  now rewrite lstrip_whitespace_app by now apply whitespace_rev.
Qed.

Lemma lstrip_app_keep s b : lstrip s <> [] -> lstrip (s ++ b) = lstrip s ++ b.
Proof.
  induction s as [|c s IH]; simpl; [congruence|].
  destruct (py_isspace c); [exact IH|reflexivity].
Qed.

Lemma strip_outer_whitespace a s b :
  whitespace a -> whitespace b -> strip (a ++ s ++ b) = strip s.
Proof.
  intros Ha Hb. unfold strip. rewrite lstrip_whitespace_app by exact Ha.
  destruct (lstrip s) as [|c t] eqn:E.
  - apply lstrip_nil_iff in E.
    assert (H : lstrip (s ++ b) = [])
      by (apply lstrip_nil_iff; now apply Forall_app).
    now rewrite H.
  - rewrite lstrip_app_keep by congruence. rewrite E.
    now apply rstrip_whitespace_app.
Qed.

Lemma strip_idempotent s : strip (strip s) = strip s.
Proof.
  apply strip_fixpoint; [apply strip_clean_head|apply strip_clean_tail].
Qed.

Lemma split_single sep l : ~ In sep l -> split sep l = [l].
Proof.
  induction l as [|c l IH]; intros H; [reflexivity|].
  simpl. destruct (N.eqb_spec c sep) as [->|Hne].
  - exfalso. apply H. now left.
  - rewrite IH; [reflexivity|]. intros Hin. apply H. now right.
Qed.

Lemma split_app_sep sep l rest :
  ~ In sep l -> split sep (l ++ sep :: rest) = l :: split sep rest.
Proof.
  induction l as [|c l IH]; intros H.
  - simpl. now rewrite N.eqb_refl.
  - simpl. destruct (N.eqb_spec c sep) as [->|Hne].
    + exfalso. apply H. now left.
    + rewrite IH; [reflexivity|]. intros Hin. apply H. now right.
Qed.

Lemma split_join sep ls :
  ls <> [] -> Forall (fun l => ~ In sep l) ls -> split sep (join sep ls) = ls.
Proof.
  induction ls as [|l ls IH]; intros Hne H; [congruence|].
  inversion H as [|? ? Hl Hls]; subst. destruct ls as [|l' ls].
  - simpl. now apply split_single.
  - change (join sep (l :: l' :: ls)) with (l ++ sep :: join sep (l' :: ls)).
    rewrite split_app_sep by exact Hl. f_equal.
    apply IH; [discriminate|exact Hls].
Qed.

Lemma split_is_blank sep s : split sep s = [[]] <-> s = [].
Proof.
  split; [|now intros ->].
  destruct s as [|c s]; [reflexivity|]. simpl.
  pose proof (split_not_nil sep s) as Hn.
  destruct (c =? sep); destruct (split sep s); try congruence; discriminate.
Qed.

Lemma join_last_suffix sep ls :
  ls <> [] -> exists pre, join sep ls = pre ++ last ls [].
Proof.
  induction ls as [|l ls IH]; intros Hne; [congruence|].
  destruct ls as [|l' ls].
  - now exists [].
  - destruct IH as [pre E]; [discriminate|].
    exists (l ++ sep :: pre).
    change (join sep (l :: l' :: ls)) with (l ++ sep :: join sep (l' :: ls)).
    change (last (l :: l' :: ls) []) with (last (l' :: ls) []).
    rewrite E, <- app_assoc. reflexivity.
Qed.

Lemma clean_head_app a b : a <> [] -> clean_head a -> clean_head (a ++ b).
Proof. destruct a; [congruence|]. simpl. auto. Qed.

Lemma clean_tail_app a b : b <> [] -> clean_tail b -> clean_tail (a ++ b).
Proof.
  unfold clean_tail. intros Hne H. rewrite rev_app_distr.
  apply clean_head_app; [|exact H].
  destruct b; [congruence|]. simpl. now destruct (rev b).
Qed.

Lemma well_formed_ends l :
  well_formed_line l -> l <> [] /\ clean_head l /\ clean_tail l.
Proof.
  intros (Hne & Hs & _). repeat split; [exact Hne| |].
  - rewrite <- Hs. apply strip_clean_head.
  - rewrite <- Hs. apply strip_clean_tail.
Qed.

Lemma join_well_formed_stripped ls :
  ls <> [] -> Forall well_formed_line ls -> strip (join nl ls) = join nl ls.
Proof.
  intros Hne H. apply strip_fixpoint.
  - destruct ls as [|l ls]; [congruence|].
    inversion H as [|? ? Hl _]; subst.
    apply well_formed_ends in Hl as (Hl & Hh & _).
    destruct ls; [exact Hh|].
    change (join nl (l :: p :: ls)) with (l ++ nl :: join nl (p :: ls)).
    now apply clean_head_app.
  - destruct (join_last_suffix nl ls Hne) as [pre E]. rewrite E.
    assert (Hl : well_formed_line (last ls [])).
    { rewrite Forall_forall in H. apply H.
      destruct ls as [|l ls]; [congruence|].
      rewrite last_cons. clear. revert l.
      induction ls as [|x ls IH]; intros l; [now left|].
      rewrite last_cons. right. apply IH. }
    apply well_formed_ends in Hl as (Hl & _ & Ht).
    now apply clean_tail_app.
Qed.

Lemma no_newline_check l :
  forallb (fun c => negb (c =? nl)) l = true -> ~ In nl l.
Proof.
  rewrite forallb_forall. intros H Hin. apply H in Hin.
  now rewrite N.eqb_refl in Hin.
Qed.

(** ** More on [LineListOutputParser.parse] *)

(** X1.  Parsing undoes joining: when the text is a non-empty list of lines
    joined by newlines, each line being non-empty, free of newlines and
    without whitespace at its ends, [parse] gives back exactly those lines;
    so a model that replies in that form has its lines returned by [expand]
    as they are. *)
Theorem parse_join_well_formed (ls : list pystr) :
  ls <> [] ->
  Forall well_formed_line ls ->
  lines (LineListOutputParser_parse (join nl ls)) = ls
  /\ forall C question w,
       fst (model_invoke C w (QUERY_PROMPT question)) = inr (join nl ls) ->
       fst (expand C question w) = inr ls.
Proof.
  intros Hne H.
  assert (E : lines (LineListOutputParser_parse (join nl ls)) = ls).
  { cbn [LineListOutputParser_parse lines].
    rewrite join_well_formed_stripped by assumption.
    apply split_join; [exact Hne|].
    eapply Forall_impl; [|exact H]. now intros l (_ & _ & Hl). }
  split; [exact E|].
  intros C question w Hr. unfold expand, multiquery_chain.
  rewrite (bind_run _ _ _ _ _
             (bind_run _ _ _ _ _ (call_model_run C _ w _ Hr))).
  cbv beta. unfold ret. cbn [fst]. now rewrite E.
Qed.

Lemma parse_join_well_formed_witness :
  Fixtures.recorded_lines <> []
  /\ Forall well_formed_line Fixtures.recorded_lines
  /\ lines (LineListOutputParser_parse (join nl Fixtures.recorded_lines))
     = Fixtures.recorded_lines.
Proof.
  assert (Hne : Fixtures.recorded_lines <> []) by discriminate.
  assert (H : Forall well_formed_line Fixtures.recorded_lines).
  { repeat constructor; try discriminate;
      try (vm_compute; reflexivity);
      apply no_newline_check; vm_compute; reflexivity. }
  split; [exact Hne|]. split; [exact H|].
  exact (proj1 (parse_join_well_formed _ Hne H)).
Defined.

(** X2.  [parse] loses nothing but whitespace at the two ends of the text:
    the text is the lines joined by newlines, with whitespace before and
    after. *)
Theorem parse_keeps_all_but_outer_whitespace (text : pystr) :
  exists a b,
    whitespace a /\ whitespace b
    /\ text = a ++ join nl (lines (LineListOutputParser_parse text)) ++ b.
Proof.
  destruct (strip_decomp text) as (a & b & Ha & Hb & E).
  exists a, b. repeat split; auto.
  cbn [LineListOutputParser_parse lines]. now rewrite join_split.
Qed.

(** X3.  Whitespace around the text, blank lines before the first line and
    after the last one included, does not change what [parse] returns. *)
Theorem parse_ignores_outer_whitespace (a text b : pystr) :
  whitespace a -> whitespace b ->
  LineListOutputParser_parse (a ++ text ++ b) = LineListOutputParser_parse text.
Proof.
  intros Ha Hb. unfold LineListOutputParser_parse.
  now rewrite strip_outer_whitespace.
Qed.

Lemma parse_ignores_outer_whitespace_witness :
  whitespace [nl; 32] /\ whitespace [13; nl; nl]
  /\ lines (LineListOutputParser_parse
              ([nl; 32] ++ (lit "a" ++ nl :: lit "b") ++ [13; nl; nl]))
     = [lit "a"; lit "b"].
Proof.
  assert (Ha : whitespace [nl; 32]) by (repeat constructor).
  assert (Hb : whitespace [13; nl; nl]) by (repeat constructor).
  split; [exact Ha|]. split; [exact Hb|].
  rewrite (parse_ignores_outer_whitespace _ (lit "a" ++ nl :: lit "b") _ Ha Hb).
  reflexivity.
Defined.

(** X4.  [parse] returns the single empty line exactly when the text is empty
    or all whitespace. *)
Theorem parse_blank_iff_whitespace (text : pystr) :
  lines (LineListOutputParser_parse text) = [[]] <-> whitespace text.
Proof.
  cbn [LineListOutputParser_parse lines].
  rewrite split_is_blank. apply strip_nil_iff.
Qed.

Lemma parse_blank_iff_whitespace_witness :
  whitespace [32; nl; 9]
  /\ lines (LineListOutputParser_parse [32; nl; 9]) = [[]].
Proof.
  assert (H : whitespace [32; nl; 9]) by (repeat constructor).
  split; [exact H|].
  exact (proj2 (parse_blank_iff_whitespace [32; nl; 9]) H).
Defined.

(** X5.  Joining the parsed lines with newlines and parsing again gives the
    same lines. *)
Theorem parse_reparse (text : pystr) :
  LineListOutputParser_parse
    (join nl (lines (LineListOutputParser_parse text)))
  = LineListOutputParser_parse text.
Proof.
  unfold LineListOutputParser_parse. cbn [lines].
  now rewrite join_split, strip_idempotent.
Qed.

(** ** More on the search loop *)

Lemma bind_fail {A B} (m : M A) (k : A -> M B) w e w' :
  bind m k w = (inl e, w') ->
  m w = (inl e, w')
  \/ exists a w1, m w = (inr a, w1) /\ k a w1 = (inl e, w').
Proof.
  unfold bind. destruct (m w) as [[e1|a] w1]; intros H.
  - left. inversion H. reflexivity.
  - right. now exists a, w1.
Qed.

Section LoopFacts.

Variable C : Collaborators.

Lemma call_search_fail query w e w' :
  call_search C query w = (inl e, w') ->
  trace w' = trace w ++ [SearchCall query (inl e)].
Proof.
  unfold call_search. destruct (search_run C w query) as [reply took].
  intros H. inversion H. subst. reflexivity.
Qed.

Lemma search_loop_fail queries : forall acc w e w',
  search_loop C queries acc w = (inl e, w') ->
  exists done query rest replies,
    queries = done ++ query :: rest
    /\ length replies = length done
    /\ trace w' =
       trace w ++ search_events done replies ++ [SearchCall query (inl e)].
Proof.
  induction queries as [|q queries IH]; intros acc w e w' H.
  - discriminate.
  - cbn [search_loop] in H. apply bind_fail in H as [H|(text & w1 & Hcall & H)].
    + apply call_search_fail in H.
      exists [], q, queries, []. repeat split. exact H.
    + apply call_search_ok in Hcall as (_ & Htr & _).
      unfold bind at 1 in H. cbn [sleep] in H.
      apply IH in H as (done & query & rest & replies & Hq & Hlen & Htrace).
      exists (q :: done), query, rest, (text :: replies).
      cbn [trace] in Htrace. repeat split.
      * now rewrite Hq.
      * simpl. now rewrite Hlen.
      * rewrite Htrace, Htr, <- !app_assoc. reflexivity.
Qed.

Lemma search_loop_acc queries : forall acc w,
  search_loop C queries acc w
  = (docs <- collect C queries ;; ret (acc ++ docs)) w.
Proof.
  unfold collect.
  induction queries as [|q queries IH]; intros acc w.
  - unfold bind, ret. cbn [search_loop ret]. now rewrite app_nil_r.
  - cbn [search_loop]. unfold bind.
    destruct (call_search C q w) as [[e|text] w1]; [reflexivity|].
    cbn [sleep].
    rewrite (IH (acc ++ [mkDocument text])).
    rewrite (IH ([] ++ [mkDocument text])).
    unfold bind.
    destruct (search_loop C queries [] _) as [[e|docs] w2]; [reflexivity|].
    unfold ret. now rewrite <- app_assoc.
Qed.

Lemma search_loop_app qs1 : forall qs2 acc w,
  search_loop C (qs1 ++ qs2) acc w
  = (acc1 <- search_loop C qs1 acc ;; search_loop C qs2 acc1) w.
Proof.
  induction qs1 as [|q qs1 IH]; intros qs2 acc w; [reflexivity|].
  cbn [app search_loop]. unfold bind.
  destruct (call_search C q w) as [[e|text] w1]; [reflexivity|].
  cbn [sleep]. rewrite IH. reflexivity.
Qed.

Lemma search_loop_clock_upper d :
  (forall w q, snd (search_run C w q) <= d) ->
  forall queries acc w docs w',
    search_loop C queries acc w = (inr docs, w') ->
    now w' <= now w + (d + 5) * N.of_nat (length queries).
Proof.
  intros Hd. induction queries as [|q queries IH]; intros acc w docs w' H.
  - apply ret_ok in H as [_ ->]. simpl. lia.
  - cbn [search_loop] in H.
    apply bind_ok in H as (text & w1 & Hcall & H).
    apply call_search_ok in Hcall as (_ & _ & Hnow).
    unfold bind at 1 in H. cbn [sleep] in H.
    apply IH in H. cbn [now] in H. specialize (Hd w q).
    cbn [length]. lia.
Qed.

End LoopFacts.

(** X6.  The search loop stops at the first request that fails: when
    [collect] raises, the queries before the failing one were each requested,
    answered and followed by their sleep, the failing request is the last
    action of the run, and nothing is requested for the queries after it. *)
Theorem collect_fails_fast (C : Collaborators) (queries : list pystr)
  (w : World) (e : Error) (w' : World) :
  collect C queries w = (inl e, w') ->
  exists done query rest replies,
    queries = done ++ query :: rest
    /\ length replies = length done
    /\ trace w' =
       trace w ++ search_events done replies ++ [SearchCall query (inl e)].
Proof. unfold collect. apply search_loop_fail. Qed.

Lemma collect_fails_fast_witness :
  collect Outages.throttled [lit "a"; lit "b"; lit "c"] Fixtures.w0
  = (inl SearchRateLimited,
     mkWorld 9 [ SearchCall (lit "a") (inr (lit "results for: a")); Sleep 5;
                 SearchCall (lit "b") (inl SearchRateLimited) ])
  /\ exists done query rest,
       [lit "a"; lit "b"; lit "c"] = done ++ query :: rest.
Proof.
  assert (H : collect Outages.throttled [lit "a"; lit "b"; lit "c"] Fixtures.w0
              = (inl SearchRateLimited,
                 mkWorld 9
                   [ SearchCall (lit "a") (inr (lit "results for: a")); Sleep 5;
                     SearchCall (lit "b") (inl SearchRateLimited) ]))
    by (vm_compute; reflexivity).
  split; [exact H|].
  destruct (collect_fails_fast _ _ _ _ _ H)
    as (done & query & rest & replies & Hq & _).
  now exists done, query, rest.
Defined.

(** X7.  Collecting over a concatenation, as the notebook does over
    [res.lines + stepback_answers], is collecting over the first part and then
    over the second from where the first run ended, the documents being
    concatenated; a failure in either part is the failure of the whole. *)
Theorem collect_app (C : Collaborators) (qs1 qs2 : list pystr) (w : World) :
  collect C (qs1 ++ qs2) w
  = (docs1 <- collect C qs1 ;;
     docs2 <- collect C qs2 ;;
     ret (docs1 ++ docs2)) w.
Proof.
  unfold collect at 1. rewrite search_loop_app.
  fold (collect C qs1). unfold bind.
  destruct (collect C qs1 w) as [[e|docs1] w1]; [reflexivity|].
  rewrite search_loop_acc. reflexivity.
Qed.

(** X8.  The loop spends its time on searching and sleeping only: when every
    search call takes at most [d] and [collect] returns on k queries, the
    clock has advanced by at least 5 k and at most (d + 5) k. *)
Theorem collect_time_bounds (C : Collaborators) (d : N)
  (queries : list pystr) (w : World) (docs : list Document) (w' : World) :
  (forall w0 q, snd (search_run C w0 q) <= d) ->
  collect C queries w = (inr docs, w') ->
  now w + 5 * N.of_nat (length queries) <= now w'
  /\ now w' <= now w + (d + 5) * N.of_nat (length queries).
Proof.
  intros Hd H. split.
  - now apply collect_ok in H as (_ & _ & Hclock).
  - exact (search_loop_clock_upper C d Hd _ _ _ _ _ H).
Qed.

Lemma collect_time_bounds_witness :
  (forall w0 q, snd (search_run Fixtures.stub w0 q) <= 2)
  /\ now (snd (collect Fixtures.stub [lit "a"; lit "b"] Fixtures.w0)) = 14
  /\ 0 + 5 * 2 <= 14 /\ 14 <= 0 + (2 + 5) * 2.
Proof.
  assert (Hd : forall w0 q, snd (search_run Fixtures.stub w0 q) <= 2)
    by (intros w0 q; simpl; lia).
  assert (H : collect Fixtures.stub [lit "a"; lit "b"] Fixtures.w0
              = (inr [mkDocument (lit "results for: a");
                      mkDocument (lit "results for: b")],
                 mkWorld 14
                   (search_events [lit "a"; lit "b"]
                      [lit "results for: a"; lit "results for: b"])))
    by (vm_compute; reflexivity).
  split; [exact Hd|]. split; [vm_compute; reflexivity|].
  exact (collect_time_bounds _ _ _ _ _ _ Hd H).
Defined.

(** ** Failures come from the collaborators only *)

Lemma all_answered_app a b :
  all_answered a -> all_answered b -> all_answered (a ++ b).
Proof. intros Ha Hb. apply Forall_app. now split. Qed.

Lemma guarded_ret {A} (a : A) (Q : A -> Prop) : Q a -> guarded (ret a) Q.
Proof.
  intros H w. cbn. split; [exact H|]. split; [lia|].
  exists []. rewrite app_nil_r. split; [reflexivity|constructor].
Qed.

Lemma guarded_bind {A B} (m : M A) (k : A -> M B) (Q : A -> Prop)
  (R : B -> Prop) :
  guarded m Q -> (forall a, Q a -> guarded (k a) R) -> guarded (bind m k) R.
Proof.
  intros Hm Hk w. unfold bind. specialize (Hm w).
  destruct (m w) as [[e|a] w1]; [exact Hm|].
  destruct Hm as (HQ & Hclk & evs & Htr & Hans).
  specialize (Hk a HQ w1). destruct (k a w1) as [[e|b] w2].
  - destruct Hk as (Hclk2 & evs2 & ev & Htr2 & Hans2 & Hf).
    split; [lia|]. exists (evs ++ evs2), ev.
    rewrite Htr2, Htr, <- !app_assoc.
    repeat split; [now apply all_answered_app|exact Hf].
  - destruct Hk as (HR & Hclk2 & evs2 & Htr2 & Hans2).
    split; [exact HR|]. split; [lia|]. exists (evs ++ evs2).
    rewrite Htr2, Htr, <- app_assoc.
    split; [reflexivity|now apply all_answered_app].
Qed.

Section Guards.

Variable C : Collaborators.
Variable P : RefinePrompts.

Lemma guarded_call_model input : guarded (call_model C input) (fun _ => True).
Proof.
  intros w. unfold call_model.
  destruct (model_invoke C w input) as [[e|text] took]; cbn.
  - split; [lia|]. exists [], (ModelCall input (inl e)).
    repeat split. constructor.
  - split; [exact I|]. split; [lia|].
    exists [ModelCall input (inr text)]. split; [reflexivity|].
    constructor; [|constructor]. intros e H. discriminate H.
Qed.






Lemma guarded_refine_steps rest : forall s,
  guarded (refine_steps C P s rest) (fun _ => True).
Proof.
  induction rest as [|d rest IH]; intros s.
  - now apply guarded_ret.
  - cbn [refine_steps].
    eapply guarded_bind; [apply guarded_call_model|]. intros revised _.
    apply IH.
Qed.

Lemma guarded_chain_invoke docs :
  docs <> [] -> guarded (chain_invoke C P docs) (fun _ => True).
Proof.
  intros Hne. destruct docs as [|d0 rest]; [congruence|].
  unfold chain_invoke. eapply guarded_bind.
  - cbn [refine]. eapply guarded_bind; [apply guarded_call_model|].
    intros seed _. apply guarded_refine_steps.
  - intros summary _. now apply guarded_ret.
Qed.


End Guards.



(** ** What a run costs *)

Lemma model_inputs_app evs1 evs2 :
  model_inputs (evs1 ++ evs2) = model_inputs evs1 ++ model_inputs evs2.
Proof. apply flat_map_app. Qed.

Lemma sleeps_app evs1 evs2 : sleeps (evs1 ++ evs2) = sleeps evs1 ++ sleeps evs2.
Proof. apply flat_map_app. Qed.

Lemma model_inputs_answered inputs : forall replies,
  length inputs = length replies ->
  model_inputs (answered_calls inputs replies) = inputs.
Proof.
  induction inputs as [|i inputs IH]; intros [|r replies] H;
    simpl in H; try discriminate; [reflexivity|].
  change (answered_calls (i :: inputs) (r :: replies))
    with (ModelCall i (inr r) :: answered_calls inputs replies).
  cbn [model_inputs flat_map app]. f_equal. apply IH. lia.
Qed.

Lemma sleeps_answered inputs : forall replies,
  sleeps (answered_calls inputs replies) = [].
Proof.
  induction inputs as [|i inputs IH]; intros [|r replies]; try reflexivity.
  change (answered_calls (i :: inputs) (r :: replies))
    with (ModelCall i (inr r) :: answered_calls inputs replies).
  cbn [sleeps flat_map app]. apply IH.
Qed.

Lemma model_inputs_events queries : forall replies,
  model_inputs (search_events queries replies) = [].
Proof.
  induction queries as [|q queries IH]; intros [|r replies]; try reflexivity.
  change (search_events (q :: queries) (r :: replies))
    with (SearchCall q (inr r) :: Sleep 5 :: search_events queries replies).
  cbn [model_inputs flat_map app]. apply IH.
Qed.

Lemma pipeline_clock (C : Collaborators) (P : RefinePrompts) question w out w' :
  pipeline C P question w = (inr out, w') ->
  exists text,
    fst (model_invoke C w (QUERY_PROMPT question)) = inr text
    /\ now w + 10 * N.of_nat (length (split nl (strip text))) <= now w'.
Proof.
  unfold pipeline. intros H.
  apply bind_ok in H as (res & w1 & Hexp & H).
  apply bind_ok in H as (answers & w2 & Hsb & H).
  apply bind_ok in H as (docs & w3 & Hcol & H).
  apply bind_ok in H as (res' & w4 & Hchain & Hret).
  apply ret_ok in Hret as [_ ->].
  unfold multiquery_chain in Hexp.
  apply bind_ok in Hexp as (text & w0 & Hcall & Hret).
  apply ret_ok in Hret as [-> ->].
  apply call_model_ok in Hcall as (Hr & _ & Hnow1).
  cbn [lines LineListOutputParser_parse] in *.
  apply stepBackAll_ok in Hsb as (Hlen2 & _ & Hclk2).
  apply collect_ok in Hcol as (_ & _ & Hclk3).
  assert (Hclk4 : now w3 <= now w4).
  { destruct docs as [|d0 rest]; [discriminate|].
    pose proof (guarded_chain_invoke C P (d0 :: rest)
                  ltac:(discriminate) w3) as G.
    rewrite Hchain in G. now destruct G as (_ & G & _). }
  exists text. split; [exact Hr|].
  rewrite length_app, Hlen2 in Hclk3. lia.
Qed.

(** X10.  A run of the pipeline that returns, the expansion having produced k
    lines, made 3 k + 1 model calls (one expansion, k step-back questions,
    2 k summarization steps), 2 k search requests and 2 k sleeps of 5, and
    took at least 10 k on the clock; k is at least 1 whatever the model
    replied. *)
Theorem pipeline_costs (C : Collaborators) (P : RefinePrompts)
  (question : pystr) (w : World) (out : pystr) (w' : World) :
  pipeline C P question w = (inr out, w') ->
  exists text k evs,
    fst (model_invoke C w (QUERY_PROMPT question)) = inr text
    /\ k = length (lines (LineListOutputParser_parse text))
    /\ (1 <= k)%nat
    /\ trace w' = trace w ++ evs
    /\ length (model_inputs evs) = (3 * k + 1)%nat
    /\ length (search_requests evs) = (2 * k)%nat
    /\ sleeps evs = repeat 5 (2 * k)
    /\ now w + 10 * N.of_nat k <= now w'.
Proof.
  intros H.
  destruct (pipeline_clock _ _ _ _ _ _ H) as (text' & Hr' & Hclk).
  apply pipeline_ok in H
    as (text & answers & docs & summaries & Hr & Hl1 & Hl2 & Hl3 & Htr & _).
  assert (text' = text) by congruence. subst text'.
  cbn [LineListOutputParser_parse lines].
  set (ls := split nl (strip text)) in *.
  rewrite length_app in Hl2.
  assert (Hk : (1 <= length ls)%nat).
  { pose proof (split_not_nil nl (strip text)) as Hn. fold ls in Hn.
    destruct ls; [congruence|simpl; lia]. }
  assert (Hq : length (map page_content docs) = length (ls ++ answers))
    by (rewrite length_map, length_app; lia).
  assert (Hin : length (refine_inputs P docs summaries) = length summaries)
    by (rewrite refine_inputs_length; lia).
  exists text, (length ls). eexists.
  split; [exact Hr|]. split; [reflexivity|]. split; [exact Hk|].
  split; [exact Htr|]. repeat split.
  - change (model_inputs (?e :: ?l))
      with (model_inputs [e] ++ model_inputs l).
    rewrite !model_inputs_app, model_inputs_events.
    rewrite !model_inputs_answered by (rewrite ?length_map; lia).
    cbn [model_inputs flat_map app length].
    rewrite length_app, length_map. lia.
  - change (search_requests (?e :: ?l))
      with (search_requests [e] ++ search_requests l).
    rewrite !search_requests_app, !search_requests_answered.
    rewrite search_requests_events by exact Hq.
    cbn [search_requests flat_map app].
    rewrite app_nil_r, length_app. lia.
  - change (sleeps (?e :: ?l)) with (sleeps [e] ++ sleeps l).
    rewrite !sleeps_app, !sleeps_answered.
    rewrite sleeps_events by exact Hq.
    cbn [sleeps flat_map app]. rewrite app_nil_r, length_app.
    f_equal. lia.
  - exact Hclk.
Qed.

Lemma pipeline_costs_witness :
  pipeline Fixtures.stub Fixtures.stub_prompts Fixtures.question Fixtures.w0
  = (inr (lit "[Revise: [Revise: [Revise]"),
     snd (pipeline Fixtures.stub Fixtures.stub_prompts
            Fixtures.question Fixtures.w0))
  /\ length (model_inputs
               (trace (snd (pipeline Fixtures.stub Fixtures.stub_prompts
                              Fixtures.question Fixtures.w0)))) = 10%nat
  /\ exists k evs,
       (1 <= k)%nat
       /\ trace (snd (pipeline Fixtures.stub Fixtures.stub_prompts
                        Fixtures.question Fixtures.w0))
          = trace Fixtures.w0 ++ evs
       /\ length (model_inputs evs) = (3 * k + 1)%nat.
Proof.
  assert (H : pipeline Fixtures.stub Fixtures.stub_prompts
                Fixtures.question Fixtures.w0
              = (inr (lit "[Revise: [Revise: [Revise]"),
                 snd (pipeline Fixtures.stub Fixtures.stub_prompts
                        Fixtures.question Fixtures.w0)))
    by (vm_compute; reflexivity).
  split; [exact H|]. split; [vm_compute; reflexivity|].
  destruct (pipeline_costs _ _ _ _ _ _ H)
    as (text & k & evs & _ & _ & Hk & Htr & Hm & _).
  exists k, evs. split; [exact Hk|]. split; [exact Htr|exact Hm].
Defined.

(** ** A blank reply to the expansion prompt *)

(** X11.  Nothing filters an empty variant.  When the model's reply to the
    expansion prompt is empty or all whitespace and the run returns, the run
    consists of exactly these actions: the expansion call, one step-back call
    for the empty question, a search request with the empty query and its
    sleep, a search request for the step-back answer and its sleep, and two
    summarization calls over the two documents. *)
Theorem blank_reply_searches_the_empty_query (C : Collaborators)
  (P : RefinePrompts) (question : pystr) (w : World) (text out : pystr)
  (w' : World) :
  fst (model_invoke C w (QUERY_PROMPT question)) = inr text ->
  whitespace text ->
  pipeline C P question w = (inr out, w') ->
  exists answer r1 r2 s1,
    trace w' =
    trace w
    ++ [ ModelCall (QUERY_PROMPT question) (inr text);
         ModelCall (prompt []) (inr answer);
         SearchCall [] (inr r1); Sleep 5;
         SearchCall answer (inr r2); Sleep 5;
         ModelCall (seed_prompt P r1) (inr s1);
         ModelCall (revise_prompt P s1 r2) (inr out) ].
Proof.
  intros Hr Hws H.
  apply pipeline_ok in H
    as (text' & answers & docs & summaries & Hr' & Hl1 & Hl2 & Hl3 & Htr & Hout).
  assert (text' = text) by congruence. subst text'.
  apply strip_nil_iff in Hws. rewrite Hws in *. cbn [split] in *.
  destruct answers as [|answer [|? ?]]; try discriminate.
  destruct docs as [|[r1] [|[r2] [|? ?]]]; try discriminate.
  destruct summaries as [|s1 [|s2 [|? ?]]]; try discriminate.
  exists answer, r1, r2, s1. rewrite Htr. cbn in Hout. subst out.
  reflexivity.
Qed.

Lemma blank_reply_searches_the_empty_query_witness :
  fst (model_invoke Fixtures.silent Fixtures.w0 (QUERY_PROMPT Fixtures.question))
  = inr []
  /\ whitespace []
  /\ pipeline Fixtures.silent Fixtures.stub_prompts Fixtures.question
       Fixtures.w0
     = (inr [], snd (pipeline Fixtures.silent Fixtures.stub_prompts
                       Fixtures.question Fixtures.w0))
  /\ search_requests
       (trace (snd (pipeline Fixtures.silent Fixtures.stub_prompts
                      Fixtures.question Fixtures.w0)))
     = [[]; []]
  /\ exists answer r1 r2 s1,
       trace (snd (pipeline Fixtures.silent Fixtures.stub_prompts
                     Fixtures.question Fixtures.w0))
       = trace Fixtures.w0
         ++ [ ModelCall (QUERY_PROMPT Fixtures.question) (inr []);
              ModelCall (prompt []) (inr answer);
              SearchCall [] (inr r1); Sleep 5;
              SearchCall answer (inr r2); Sleep 5;
              ModelCall (seed_prompt Fixtures.stub_prompts r1) (inr s1);
              ModelCall (revise_prompt Fixtures.stub_prompts s1 r2) (inr []) ].
Proof.
  assert (Hr : fst (model_invoke Fixtures.silent Fixtures.w0
                      (QUERY_PROMPT Fixtures.question)) = inr [])
    by reflexivity.
  assert (Hws : whitespace []) by constructor.
  assert (H : pipeline Fixtures.silent Fixtures.stub_prompts Fixtures.question
                Fixtures.w0
              = (inr [], snd (pipeline Fixtures.silent Fixtures.stub_prompts
                                Fixtures.question Fixtures.w0)))
    by (vm_compute; reflexivity).
  split; [exact Hr|]. split; [exact Hws|]. split; [exact H|].
  split; [vm_compute; reflexivity|].
  exact (blank_reply_searches_the_empty_query _ _ _ _ _ _ _ Hr Hws H).
Defined.
